(** * Substring cardinality estimation with a HyperLogLog sketch

    A shallow embedding of [hll_implementation.py]: the line source, the
    substring generator, the ingestion of every substring into a sketch, the
    error-bound report, and the merge of the two per-language sketches.

    Conventions of the embedding.
    - A Python [str] is a list of Unicode code points ([N]); slicing and
      [len] count code points, as in Python 3.
    - A generator is the finite list of the values it yields, in order.
    - A Python [float] is idealised as an exact rational ([Q]); a division
      raises [ZeroDivisionError] when the divisor is zero, as Python's does.
      The arithmetic of [calculate_metrics] is also given on IEEE 754
      doubles, to evaluate it at concrete inputs as Python does.
    - Sketch objects live in a heap indexed by object identity; a variable
      holding a sketch holds its location.  Every operation is a function
      from the world before the call to an outcome and the world after it,
      so that what a call mutates is visible. *)

From Stdlib Require Import ZArith QArith Qabs Lia Lqa Ascii String.
From Stdlib Require Import PrimFloat Uint63.
From stdpp Require Import gmap list strings.

Local Open Scope nat_scope.

(** ** Strings *)

Abbreviation char := N (only parsing).
Abbreviation str := (list N) (only parsing).

(** A string literal, code point by code point (ASCII range). *)
Definition py (s : string) : str :=
  N_of_ascii <$> list_ascii_of_string s.

(** [line[j:i]] for non-negative indices: Python clamps both ends to the
    length and yields the empty string when [i <= j]. *)
Definition slice (j i : nat) (line : str) : str :=
  take (i - j) (drop j line).

(** The characters [str.strip()] removes when called without argument:
    those for which [str.isspace] holds. *)
Definition is_space (c : char) : bool :=
  ((9 <=? c) && (c <=? 13) || (28 <=? c) && (c <=? 32)
   || (c =? 133) || (c =? 160) || (c =? 5760)
   || (8192 <=? c) && (c <=? 8202)
   || (c =? 8232) || (c =? 8233) || (c =? 8239) || (c =? 8287)
   || (c =? 12288))%N.

Fixpoint lstrip (s : str) : str :=
  match s with
  | [] => []
  | c :: rest => if is_space c then lstrip rest else s
  end.

Definition rstrip (s : str) : str := reverse (lstrip (reverse s)).

(** [line.strip()] *)
Definition strip (s : str) : str := rstrip (lstrip s).

(** ** Text files *)

Definition LF : char := 10%N.
Definition CR : char := 13%N.

(** Text mode with the default [newline=None]: each of ["\r\n"], ["\r"] and
    ["\n"] reaches the program as ["\n"]. *)
Fixpoint universal_newlines (after_cr : bool) (s : str) : str :=
  match s with
  | [] => []
  | c :: rest =>
      if (c =? CR)%N then LF :: universal_newlines true rest
      else if (c =? LF)%N then
        if after_cr then universal_newlines false rest
        else LF :: universal_newlines false rest
      else c :: universal_newlines false rest
  end.

(** [for line in datafile]: the text cut after every ["\n"], terminators
    kept; a last line without terminator is yielded as it is. *)
Fixpoint file_lines (s : str) : list str :=
  match s with
  | [] => []
  | c :: rest =>
      if (c =? LF)%N then [c] :: file_lines rest
      else match file_lines rest with
           | [] => [[c]]
           | line :: lines => (c :: line) :: lines
           end
  end.

(** ** The sketch *)

(** Modelled from the spec: the state of a sketch.  The [hyperloglog]
    package that provides it is third-party code, not under src/. *)
Record Sketch := mkSketch {
  precision : nat;
  registers : list nat
}.

(** What the sketch library leaves open: the 64-bit hash of an item, and the
    cardinality estimator behind [len(hll)] as a function of the precision
    and the registers ([len] of a Python object is a non-negative [int]). *)
Class SketchLibrary := {
  hash64 : str → Z;
  estimator : nat → list nat → N
}.

(** ** Worlds, outcomes and the monad of the program *)

Inductive exception :=
  | ZeroDivisionError
  | FileNotFoundError
  | InvalidParameter
  | IncompatiblePrecision
  | InvalidReference.

Inductive result (A : Type) :=
  | Ok (a : A)
  | Raise (e : exception).
Arguments Ok {A} a.
Arguments Raise {A} e.

Abbreviation loc := positive (only parsing).

(** One call of [print_estimates], or the bare [print()]. *)
Inductive output :=
  | Estimates (name : string) (lower_bound : Q) (substrings : N) (upper_bound : Q)
  | BlankLine.

Record world := mkWorld {
  files : gmap string (list N);
  heap : gmap loc Sketch;
  stdout : list output
}.

Definition set_heap (h : gmap loc Sketch) (w : world) : world :=
  {| files := files w; heap := h; stdout := stdout w |}.

Definition M (A : Type) : Type := world → result A * world.

Definition ret {A} (a : A) : M A := λ w, (Ok a, w).

Definition raise {A} (e : exception) : M A := λ w, (Raise e, w).

Definition bind {A B} (m : M A) (k : A → M B) : M B :=
  λ w, match m w with
       | (Ok a, w') => k a w'
       | (Raise e, w') => (Raise e, w')
       end.

Notation "'let!' x ':=' m 'in' k" := (bind m (λ x, k))
  (at level 10, x pattern, m at level 100, k at level 200,
   format "'[v' 'let!'  x  ':='  m  'in' '/' k ']'").
Notation "m ';;;' k" := (bind m (λ _, k))
  (at level 100, k at level 200, right associativity).

(** [for x in xs: body(x)] *)
Fixpoint for_each {A} (xs : list A) (body : A → M unit) : M unit :=
  match xs with
  | [] => ret tt
  | x :: rest => body x ;;; for_each rest body
  end.

(** ** The sketch library *)

Section sketch_library.
Context `{SketchLibrary}.

(** Modelled from the spec: the choice of the precision at construction
    (the [hyperloglog] package is not under src/).  The precision is the
    smallest [p] with [1.04 / sqrt (2^p) <= relative_error]; for a loc
    [relative_error] that is [1.04^2 <= relative_error^2 * 2^p], which is
    decided exactly. *)
Definition enough_registers (relative_error : Q) (p : nat) : bool :=
  Qle_bool ((26 # 25) * (26 # 25))
           (relative_error * relative_error * inject_Z (2 ^ Z.of_nat p)).

(** Modelled from the spec: the search stops at 16, the largest precision
    the construction accepts. *)
Definition choose_precision (relative_error : Q) : option nat :=
  List.find (enough_registers relative_error) (seq 0 17).

Definition empty_sketch (p : nat) : Sketch :=
  {| precision := p; registers := replicate (2 ^ p) 0 |}.

(** A new object at a location no live object has. *)
Definition alloc (s : Sketch) : M loc :=
  λ w, let l := fresh (dom (heap w)) in (Ok l, set_heap (<[l := s]> (heap w)) w).

(** Modelled from the spec: [hyperloglog.HyperLogLog(relative_error)] fails
    with [InvalidParameter] when [relative_error] is outside (0, 1) or the
    derived precision is outside 4..16; otherwise all [2^p] registers are 0. *)
Definition HyperLogLog (relative_error : Q) : M loc :=
  if negb (Qle_bool relative_error 0) && negb (Qle_bool 1 relative_error) then
    match choose_precision relative_error with
    | Some p => if 4 <=? p then alloc (empty_sketch p) else raise InvalidParameter
    | None => raise InvalidParameter
    end
  else raise InvalidParameter.

(** Modelled from the spec: the 1-indexed position of the leftmost set bit
    of [w] read as a field of [width] bits, [width + 1] when no bit is set. *)
Definition rho (w : Z) (width : nat) : nat :=
  if (w =? 0)%Z then width + 1 else width - Z.to_nat (Z.log2 w).

(** Modelled from the spec: the register update of [add] (the [hyperloglog]
    package is not under src/).  The low [precision] bits of the 64-bit hash
    select the register, the remaining high bits give the rank, and the
    register keeps the maximum.  On a sketch with [2^precision] registers
    the index is in range ([add_item_index_in_range]). *)
Definition add_item (value : str) (s : Sketch) : Sketch :=
  let p := precision s in
  let x := (hash64 value mod 2 ^ 64)%Z in
  let j := Z.to_nat (Z.land x (2 ^ Z.of_nat p - 1)) in
  let w := Z.shiftr x (Z.of_nat p) in
  let rank := rho w (64 - p) in
  {| precision := p;
     registers := <[j := (registers s !!! j) `max` rank]> (registers s) |}.

(** Modelled from the spec: [hll.add(value)] mutates the object in place. *)
Definition hll_add (hll : loc) (value : str) : M unit :=
  λ w, match heap w !! hll with
       | Some s => (Ok tt, set_heap (<[hll := add_item value s]> (heap w)) w)
       | None => (Raise InvalidReference, w)
       end.

(** Modelled from the spec: [len(hll)], the estimate, is a read-only query
    of the registers (the [hyperloglog] package is not under src/). *)
Definition hll_len (hll : loc) : M N :=
  λ w, match heap w !! hll with
       | Some s => (Ok (estimator (precision s) (registers s)), w)
       | None => (Raise InvalidReference, w)
       end.

(** Modelled from the spec: the element-wise maximum of two register
    arrays of equal precision. *)
Definition merge (a b : Sketch) : Sketch :=
  {| precision := precision a;
     registers := zip_with Nat.max (registers a) (registers b) |}.

(** Modelled from the spec: [self.update(other)] merges [other] into [self]
    in place, and fails before any change when the precisions differ (the
    [hyperloglog] package is not under src/). *)
Definition hll_update (self other : loc) : M unit :=
  λ w, match heap w !! self, heap w !! other with
       | Some a, Some b =>
           if decide (precision a = precision b)
           then (Ok tt, set_heap (<[self := merge a b]> (heap w)) w)
           else (Raise IncompatiblePrecision, w)
       | _, _ => (Raise InvalidReference, w)
       end.

(** [copy.deepcopy(hll)]: a new object with a copy of the state. *)
Definition deepcopy (hll : loc) : M loc :=
  λ w, match heap w !! hll with
       | Some s => alloc s w
       | None => (Raise InvalidReference, w)
       end.

End sketch_library.

(** ** The program *)

(** [open(filename, 'r', encoding='utf8')] and the iteration over the file:
    the lines of an existing file, [FileNotFoundError] otherwise.  A path
    in [files] stands for a readable file of valid UTF-8 text, given by its
    decoded content; directories, unreadable files and undecodable bytes
    are outside the model. *)
Definition open_lines (filename : string) : M (list (list N)) :=
  λ w, match files w !! filename with
       | Some content => (Ok (file_lines (universal_newlines false content)), w)
       | None => (Raise FileNotFoundError, w)
       end.

(** [for line in datafile: yield line.strip()] *)
Definition read_file (filename : string) : M (list (list N)) :=
  let! datafile := open_lines filename in
  ret (strip <$> datafile).

(** [for i in np.arange(1, size+1): for j in np.arange(0, i): yield line[j:i]] *)
Definition obtain_substrings (line : str) : list str :=
  let size := length line in
  i ← seq 1 size; j ← seq 0 i; [slice j i line].

(** [for line in read_file(filename): for substring in
    obtain_substrings(line): yield substring] *)
Definition find_substrings_from_file (filename : string) : M (list (list N)) :=
  let! lines := read_file filename in
  ret (line ← lines; obtain_substrings line).

(** Python's true division. *)
Definition truediv (a b : Q) : M Q :=
  if Qeq_bool b 0 then raise ZeroDivisionError else ret (a / b)%Q.

(** An [int] used in float arithmetic. *)
Definition float_of_int (n : N) : Q := inject_Z (Z.of_N n).

(** The printed block of [print_estimates(name, lower_bound, substrings,
    upper_bound)], appended to the standard output. *)
Definition print_estimates (name : string) (lower_bound : Q) (substrings : N)
    (upper_bound : Q) : M unit :=
  λ w, (Ok tt, {| files := files w; heap := heap w;
                  stdout := stdout w ++ [Estimates name lower_bound substrings upper_bound] |}).

(** [print()] *)
Definition print_blank : M unit :=
  λ w, (Ok tt, {| files := files w; heap := heap w;
                  stdout := stdout w ++ [BlankLine] |}).

Section program.
Context `{SketchLibrary}.

(** The generator is consumed lazily, so the file is opened only when the
    loop starts: after the sketch exists and holds the empty string. *)
Definition create_hll (filename : string) (relative_error : Q) : M loc :=
  let! hll := HyperLogLog relative_error in
  hll_add hll [] ;;;
  let! substrings := find_substrings_from_file filename in
  for_each substrings (λ substring, hll_add hll substring) ;;;
  ret hll.

Definition calculate_metrics (hll : loc) (relative_error : Q)
    : M (Q * N * Q * Q) :=
  let! substrings := hll_len hll in
  let! q_low := truediv 1 (1 + relative_error) in
  let lower_bound := (q_low * float_of_int substrings)%Q in
  let! q_upp := truediv 1 (1 - relative_error) in
  let upper_bound := (q_upp * float_of_int substrings)%Q in
  let! q_abs := truediv relative_error (1 + relative_error) in
  let abs_error := (q_abs * float_of_int substrings)%Q in
  ret (lower_bound, substrings, upper_bound, abs_error).

(** Lines 144-145 of the script: the combined sketch is a deep copy of the
    English one, into which the Danish one is merged. *)
Definition combine (hll_en hll_dk : loc) : M loc :=
  let! hll_combined := deepcopy hll_en in
  hll_update hll_combined hll_dk ;;;
  ret hll_combined.

(** Lines 147-151 of the script. *)
Definition report_combined (hll_combined : loc) (dk_abs_err en_abs_err : Q)
    : M unit :=
  let comb_abs_err := (dk_abs_err + en_abs_err)%Q in
  let! n_low := hll_len hll_combined in
  let comb_low := (float_of_int n_low - comb_abs_err)%Q in
  let! comb_est := hll_len hll_combined in
  let! n_upp := hll_len hll_combined in
  let comb_upp := (float_of_int n_upp + comb_abs_err)%Q in
  print_estimates "Combined" comb_low comb_est comb_upp.

(** The script run as [__main__]. *)
Definition main : M unit :=
  let relative_error := (1 # 100)%Q in
  let! hll_dk := create_hll "words_danish.txt" relative_error in
  let! hll_en := create_hll "words_english.txt" relative_error in
  let! (dk_low, dk_est, dk_upp, dk_abs_err) := calculate_metrics hll_dk relative_error in
  print_estimates "Danish" dk_low dk_est dk_upp ;;;
  let! (en_low, en_est, en_upp, en_abs_err) := calculate_metrics hll_en relative_error in
  print_estimates "English" en_low en_est en_upp ;;;
  let! hll_combined := combine hll_en hll_dk in
  report_combined hll_combined dk_abs_err en_abs_err ;;;
  print_blank.

End program.

(** ** The arithmetic of [calculate_metrics] in binary64

    The same three quotients and products on IEEE 754 doubles, the floats
    Python computes with; [None] stands for [ZeroDivisionError]. *)

Definition truediv_binary64 (a b : float) : option float :=
  if PrimFloat.eqb b 0%float then None else Some (a / b)%float.

Definition calculate_metrics_binary64 (substrings : Z) (relative_error : float)
    : option (float * Z * float * float) :=
  let n := PrimFloat.of_uint63 (Uint63.of_Z substrings) in
  match truediv_binary64 1 (1 + relative_error) with
  | None => None
  | Some q_low =>
      match truediv_binary64 1 (1 - relative_error) with
      | None => None
      | Some q_upp =>
          match truediv_binary64 relative_error (1 + relative_error) with
          | None => None
          | Some q_abs =>
              Some ((q_low * n)%float, substrings, (q_upp * n)%float,
                    (q_abs * n)%float)
          end
      end
  end.

(** ** A concrete instance

    The general theorems quantify over the hash and the estimator.  To run
    the program, this instance hashes with a 64-bit multiplicative hash and
    estimates by counting the registers in use. *)

Definition sample_hash (value : str) : Z :=
  foldl (λ h c, ((h * 1099511628211 + Z.of_N c) mod 2 ^ 64)%Z)
        14695981039346656037%Z value.

Definition sample_library : SketchLibrary :=
  {| hash64 := sample_hash;
     estimator := λ _ regs, N.of_nat (length (filter (λ r, r ≠ 0) regs)) |}.

Definition sample_world : world :=
  {| files := {[ "words_danish.txt"%string := py "kat" ++ [LF] ++ py "hund" ++ [LF];
                 "words_english.txt"%string := py "cat" ++ [CR; LF] ++ py "dog" ]};
     heap := ∅;
     stdout := [] |}.

(** A library whose estimator reports 1000 for every sketch: the estimate
    of the error-bound scenario. *)
Definition scenario_library : SketchLibrary :=
  {| hash64 := sample_hash; estimator := λ _ _, 1000%N |}.

(** A world whose only object is a sketch of precision 4 that has seen no
    item. *)
Definition one_sketch_world : world :=
  {| files := ∅; heap := {[ 1%positive := empty_sketch 4 ]}; stdout := [] |}.

(** A world with two live sketches of precision 4, one item each. *)
Definition two_sketch_world : world :=
  {| files := ∅;
     heap := {[ 1%positive := @add_item sample_library (py "kat") (empty_sketch 4);
                2%positive := @add_item sample_library (py "cat") (empty_sketch 4) ]};
     stdout := [] |}.


(** A word list whose first line carries a leading space and a trailing
    space and tab: [" cat \t\ndog\n"]. *)
Definition padded_world : world :=
  {| files := {[ "words.txt"%string :=
                   [32%N] ++ py "cat" ++ [32%N; 9%N; LF] ++ py "dog" ++ [LF] ]};
     heap := ∅;
     stdout := [] |}.

(** The (start, end) index pairs in the order the two loops of
    [obtain_substrings] visit them. *)
Definition index_pairs (size : nat) : list (nat * nat) :=
  i ← seq 1 size; j ← seq 0 i; [(j, i)].

(** [sample_world] with a third file that holds the words of both lists. *)
Definition union_world : world :=
  {| files := <[ "words_both.txt"%string :=
                   py "hund" ++ [LF] ++ py "cat" ++ [LF] ++ py "kat" ++ [LF]
                   ++ py "dog" ++ [LF] ++ py "cat" ++ [LF] ]> (files sample_world);
     heap := ∅;
     stdout := [] |}.

(** The files of [sample_world] beside two live sketches and some earlier
    output. *)
Definition populated_world : world :=
  {| files := files sample_world;
     heap := heap two_sketch_world;
     stdout := [BlankLine] |}.

(** Two files with the same lines up to order, repetition, padding and the
    kind of line terminator: ["cat\ndog\ncat\n"] and [" dog\r\ncat"]. *)
Definition shuffled_world : world :=
  {| files := {[ "a.txt"%string :=
                   py "cat" ++ [LF] ++ py "dog" ++ [LF] ++ py "cat" ++ [LF];
                 "b.txt"%string := py " dog" ++ [CR; LF] ++ py "cat" ]};
     heap := ∅;
     stdout := [] |}.

(** A world that has the Danish word list only. *)
Definition danish_only_world : world :=
  {| files := {[ "words_danish.txt"%string := py "kat" ++ [LF] ++ py "hund" ++ [LF] ]};
     heap := ∅;
     stdout := [] |}.

(** A word list whose lines end with ["\r\n"]. *)
Definition crlf_world : world :=
  {| files := {[ "words_crlf.txt"%string :=
                   py "kat" ++ [CR; LF] ++ py "hund" ++ [CR; LF] ]};
     heap := ∅;
     stdout := [] |}.

(** A string that neither starts nor ends with white space (the empty
    string included). *)
Definition trimmed (s : str) : Prop :=
  (∀ c, head s = Some c → is_space c = false)
  ∧ (∀ c, last s = Some c → is_space c = false).

(** * Properties *)

(** ** The substring generator *)

Example obtain_substrings_cat :
  obtain_substrings (py "cat")
  = [py "c"; py "ca"; py "a"; py "cat"; py "at"; py "t"].
Proof. reflexivity. Qed.

Lemma elem_of_index_pairs (n j i : nat) :
  (j, i) ∈ index_pairs n ↔ j < i ≤ n.
Proof.
  unfold index_pairs. rewrite list_elem_of_bind. split.
  - intros (i' & Hin & Hi'). apply elem_of_seq in Hi'.
    apply list_elem_of_bind in Hin as (j' & Hin & Hj').
    apply elem_of_seq in Hj'. apply list_elem_of_singleton in Hin.
    inversion Hin; subst. lia.
  - intros Hlt. exists i. split; [|apply elem_of_seq; lia].
    apply list_elem_of_bind. exists j. split; [by apply list_elem_of_singleton|].
    apply elem_of_seq. lia.
Qed.

Lemma NoDup_index_pairs (n : nat) : NoDup (index_pairs n).
Proof.
  unfold index_pairs. apply NoDup_bind; [| |apply NoDup_seq].
  - intros i1 i2 [j i] _ _ H1 H2.
    apply list_elem_of_bind in H1 as (? & H1 & _).
    apply list_elem_of_bind in H2 as (? & H2 & _).
    apply list_elem_of_singleton in H1, H2. congruence.
  - intros i _. apply NoDup_bind; [| |apply NoDup_seq].
    + intros j1 j2 y _ _ H1 H2.
      apply list_elem_of_singleton in H1, H2. congruence.
    + intros. apply NoDup_singleton.
Qed.

Lemma obtain_substrings_index_pairs (line : str) :
  obtain_substrings line
  = (λ ji, slice ji.1 ji.2 line) <$> index_pairs (length line).
Proof.
  unfold obtain_substrings, index_pairs.
  generalize (seq 1 (length line)) as outer.
  induction outer as [|i outer IH]; [done|].
  rewrite !bind_cons, fmap_app, IH. f_equal.
  generalize (seq 0 i) as inner.
  induction inner as [|j inner IHj]; [done|].
  rewrite !bind_cons, fmap_app, IHj. done.
Qed.

Lemma length_bind_singleton {A B} (f : A → B) (l : list A) :
  length (x ← l; [f x]) = length l.
Proof. induction l as [|x l IH]; [done|]. rewrite bind_cons. simpl. by rewrite IH. Qed.

Lemma length_index_pairs (n : nat) :
  2 * length (index_pairs n) = n * (n + 1).
Proof.
  unfold index_pairs. induction n as [|n IH]; [done|].
  rewrite seq_S, bind_app, length_app, bind_singleton.
  rewrite length_bind_singleton, length_seq. lia.
Qed.

Lemma slice_nonempty (j i : nat) (line : str) :
  j < i ≤ length line → slice j i line ≠ [].
Proof.
  intros Hji Hnil. apply (f_equal length) in Hnil.
  unfold slice in Hnil. rewrite length_take, length_drop in Hnil.
  simpl in Hnil. lia.
Qed.

Lemma slice_whole (line : str) : slice 0 (length line) line = line.
Proof. unfold slice. rewrite drop_0, Nat.sub_0_r. by apply take_ge. Qed.

(** C2. For every word [w] of length [n], [obtain_substrings w] yields,
    once for each index pair [0 <= j < i <= n] and for nothing else, the
    [i - j] characters of [w] that start at position [j]: the yields are
    the image of a duplicate-free list holding exactly those pairs.  Hence
    every yield is a non-empty contiguous part of [w], the word itself is
    among them (unless it is empty), and there are [n * (n + 1) / 2]
    yields; for "cat" the six yields are "c", "ca", "a", "cat", "at",
    "t". *)
Theorem obtain_substrings_every_index_pair_once (w : str) :
  let n := length w in
  (∃ pairs : list (nat * nat),
      obtain_substrings w
      = (λ ji : nat * nat, take (ji.2 - ji.1) (drop ji.1 w)) <$> pairs
      ∧ NoDup pairs
      ∧ ∀ j i, (j, i) ∈ pairs ↔ j < i ≤ n)
  ∧ Forall (λ s, s ≠ [] ∧ ∃ pre suf, w = pre ++ s ++ suf) (obtain_substrings w)
  ∧ (w = [] ∨ w ∈ obtain_substrings w)
  ∧ length (obtain_substrings w) = n * (n + 1) / 2
  ∧ obtain_substrings [99; 97; 116]%N
    = [[99]; [99; 97]; [97]; [99; 97; 116]; [97; 116]; [116]]%N.
Proof.
  intros n. split_and!.
  - exists (index_pairs n). split_and!.
    + apply obtain_substrings_index_pairs.
    + apply NoDup_index_pairs.
    + intros j i. apply elem_of_index_pairs.
  - rewrite obtain_substrings_index_pairs. apply Forall_fmap, Forall_forall.
    intros [j i] Hin%elem_of_index_pairs. simpl. split.
    + by apply slice_nonempty.
    + exists (take j w), (drop (i - j) (drop j w)). unfold slice.
      by rewrite take_drop, take_drop.
  - destruct w as [|c w]; [by left|right].
    rewrite obtain_substrings_index_pairs.
    apply list_elem_of_fmap. exists (0, length (c :: w)). split.
    + exact (eq_sym (slice_whole (c :: w))).
    + apply elem_of_index_pairs. simpl. lia.
  - rewrite obtain_substrings_index_pairs, length_fmap.
    pose proof (length_index_pairs n) as Hlen. fold n.
    rewrite <- Hlen, Nat.mul_comm. by rewrite Nat.div_mul.
  - reflexivity.
Qed.

(** ** The error-bound report *)

Section metrics.
Context `{SketchLibrary}.

Lemma truediv_run (a b : Q) (w : world) :
  truediv a b w
  = if Qeq_bool b 0 then (Raise ZeroDivisionError, w) else (Ok (a / b)%Q, w).
Proof. unfold truediv. by destruct (Qeq_bool b 0). Qed.

(** One equation for every run of [calculate_metrics] on a live sketch. *)
Lemma calculate_metrics_run (w : world) (hll : loc) (s : Sketch) (eps : Q) :
  heap w !! hll = Some s →
  let substrings := estimator (precision s) (registers s) in
  let n := float_of_int substrings in
  calculate_metrics hll eps w
  = if Qeq_bool (1 + eps) 0 then (Raise ZeroDivisionError, w)
    else if Qeq_bool (1 - eps) 0 then (Raise ZeroDivisionError, w)
    else (Ok ((1 / (1 + eps) * n)%Q, substrings, (1 / (1 - eps) * n)%Q,
              (eps / (1 + eps) * n)%Q), w).
Proof.
  intros Hs. unfold calculate_metrics, bind, hll_len. rewrite Hs.
  rewrite !truediv_run.
  destruct (Qeq_bool (1 + eps) 0) eqn:Elow; [done|].
  rewrite !truediv_run.
  destruct (Qeq_bool (1 - eps) 0) eqn:Eupp; [done|].
  rewrite !truediv_run, Elow. reflexivity.
Qed.

Lemma Qeq_bool_false (a b : Q) : ¬ (a == b)%Q → Qeq_bool a b = false.
Proof.
  intros Hne. destruct (Qeq_bool a b) eqn:E; [|done].
  by apply Qeq_bool_eq in E.
Qed.

Lemma float_of_int_nonneg (n : N) : (0 <= float_of_int n)%Q.
Proof.
  unfold float_of_int. change 0%Q with (inject_Z 0).
  rewrite <- Zle_Qle. lia.
Qed.

Lemma Qmult_one_div (n d : Q) : ¬ (d == 0)%Q → (1 / d * n == n / d)%Q.
Proof. intros Hd. field. exact Hd. Qed.

Lemma Qdiv_le_self (n d : Q) : (0 <= n)%Q → (1 <= d)%Q → (n / d <= n)%Q.
Proof.
  intros Hn Hd. apply Qle_shift_div_r; [lra | nra].
Qed.

Lemma Qdiv_ge_self (n d : Q) :
  (0 <= n)%Q → (0 < d)%Q → (d <= 1)%Q → (n <= n / d)%Q.
Proof.
  intros Hn Hpos Hd. apply Qle_shift_div_l; [exact Hpos | nra].
Qed.


End metrics.

Section metrics_claims.
Context `{SketchLibrary}.

(** C1, as the code has it.  For every live sketch [hll], with
    [n = len(hll)]: for every [eps] other than 1 and -1 (both denominators
    non-zero) [calculate_metrics hll eps] returns the quadruple
    [(1 / (1 + eps) * n, n, 1 / (1 - eps) * n, eps / (1 + eps) * n)], the
    world unchanged; in exact arithmetic its lower bound is [n / (1 + eps)]
    and its upper bound [n / (1 - eps)].  At [eps = 1] and [eps = -1] it
    raises [ZeroDivisionError] instead.  For [n = 1000] and [eps = 0.01]
    the three values are within 0.01 of 990.1, 1010.1 and 9.9, in exact
    arithmetic and on doubles.  On doubles the bounds need not be the
    quotients [n / (1 + eps)] and [n / (1 - eps)]: for [n = 11] and
    [eps = 0.01] both differ from them in the last bit. *)
Theorem calculate_metrics_quadruple (w : world) (hll : loc) (s : Sketch)
    (eps : Q) :
  heap w !! hll = Some s →
  let substrings := estimator (precision s) (registers s) in
  let n := inject_Z (Z.of_N substrings) in
  (¬ (1 + eps == 0)%Q → ¬ (1 - eps == 0)%Q →
   calculate_metrics hll eps w
   = (Ok ((1 / (1 + eps) * n)%Q, substrings, (1 / (1 - eps) * n)%Q,
          (eps / (1 + eps) * n)%Q), w)
   ∧ (1 / (1 + eps) * n == n / (1 + eps))%Q
   ∧ (1 / (1 - eps) * n == n / (1 - eps))%Q)
  ∧ ((eps == 1)%Q ∨ (eps == -1)%Q →
     calculate_metrics hll eps w = (Raise ZeroDivisionError, w))
  ∧ (substrings = 1000%N → (eps == 1 # 100)%Q →
     (Qabs (1 / (1 + eps) * n - (9901 # 10)) <= 1 # 100)%Q
     ∧ (Qabs (1 / (1 - eps) * n - (10101 # 10)) <= 1 # 100)%Q
     ∧ (Qabs (eps / (1 + eps) * n - (99 # 10)) <= 1 # 100)%Q)
  ∧ (∃ lower upper abs_error : float,
       calculate_metrics_binary64 1000 0x1.47ae147ae147bp-7
       = Some (lower, 1000%Z, upper, abs_error)
       ∧ PrimFloat.leb (PrimFloat.abs (lower - 0x1.ef0cccccccccdp+9))
                       0x1.47ae147ae147bp-7 = true
       ∧ PrimFloat.leb (PrimFloat.abs (upper - 0x1.f90cccccccccdp+9))
                       0x1.47ae147ae147bp-7 = true
       ∧ PrimFloat.leb (PrimFloat.abs (abs_error - 0x1.3cccccccccccdp+3))
                       0x1.47ae147ae147bp-7 = true)
  ∧ (∃ lower upper abs_error : float,
       calculate_metrics_binary64 11 0x1.47ae147ae147bp-7
       = Some (lower, 11%Z, upper, abs_error)
       ∧ PrimFloat.eqb lower (11 / (1 + 0x1.47ae147ae147bp-7)) = false
       ∧ PrimFloat.eqb upper (11 / (1 - 0x1.47ae147ae147bp-7)) = false).
Proof.
  intros Hs substrings n. split_and!.
  - intros Hlow Hupp. split_and!.
    + rewrite (calculate_metrics_run w hll s eps Hs).
      by rewrite !Qeq_bool_false.
    + by apply Qmult_one_div.
    + by apply Qmult_one_div.
  - intros Heps. rewrite (calculate_metrics_run w hll s eps Hs).
    destruct Heps as [Heps | Heps].
    + rewrite Qeq_bool_false by lra.
      assert (Hzero : Qeq_bool (1 - eps) 0 = true) by (apply Qeq_eq_bool; lra).
      by rewrite Hzero.
    + assert (Hzero : Qeq_bool (1 + eps) 0 = true) by (apply Qeq_eq_bool; lra).
      by rewrite Hzero.
  - intros Hn Heps. unfold n. rewrite Hn, !Heps.
    split_and!; apply Qabs_Qle_condition; split; by vm_compute.
  - do 3 eexists. split_and!; [vm_compute; reflexivity | by vm_compute..].
  - do 3 eexists. split_and!; [vm_compute; reflexivity | by vm_compute..].
Qed.

End metrics_claims.

(** The error-bound scenario, run: estimate 1000, relative error 0.01; and
    the same sketch with relative error 1. *)
Lemma calculate_metrics_quadruple_scenario :
  @calculate_metrics scenario_library 1%positive (1 # 100) one_sketch_world
  = (Ok ((1 / (1 + (1 # 100)) * 1000)%Q, 1000%N, (1 / (1 - (1 # 100)) * 1000)%Q,
         ((1 # 100) / (1 + (1 # 100)) * 1000)%Q), one_sketch_world)
  ∧ (Qabs (1 / (1 + (1 # 100)) * 1000 - (9901 # 10)) <= 1 # 100)%Q
  ∧ (Qabs (1 / (1 - (1 # 100)) * 1000 - (10101 # 10)) <= 1 # 100)%Q
  ∧ (Qabs ((1 # 100) / (1 + (1 # 100)) * 1000 - (99 # 10)) <= 1 # 100)%Q
  ∧ @calculate_metrics scenario_library 1%positive 1 one_sketch_world
    = (Raise ZeroDivisionError, one_sketch_world).
Proof.
  destruct (@calculate_metrics_quadruple scenario_library one_sketch_world
              1%positive (empty_sketch 4) (1 # 100) eq_refl)
    as (Hok & _ & Hscenario & _).
  destruct Hok as (Hrun & _ & _);
    [intros Heq; discriminate Heq | intros Heq; discriminate Heq |].
  destruct (Hscenario eq_refl (Qeq_refl _)) as (Hlower & Hupper & Herr).
  destruct (@calculate_metrics_quadruple scenario_library one_sketch_world
              1%positive (empty_sketch 4) 1 eq_refl)
    as (_ & Hraise & _).
  split_and!; [exact Hrun | exact Hlower | exact Hupper | exact Herr |].
  apply Hraise. left. reflexivity.
Defined.

(** C1, as it is stated, fails.  Not every relative error makes the call
    return a quadruple: at [eps = 1] it raises [ZeroDivisionError], in the
    exact model and on doubles.  And on doubles the lower and the upper
    bound are not always [n / (1 + eps)] and [n / (1 - eps)]: the code
    computes [1 / (1 + eps) * n] and [1 / (1 - eps) * n], which for [n = 11]
    and [eps = 0.01] are 10.89108910891089 and 11.111111111111112 where the
    quotients are 10.891089108910892 and 11.11111111111111. *)
Lemma calculate_metrics_quadruple_not_every_eps :
  ¬ (∀ (L : SketchLibrary) (w : world) (hll : loc) (s : Sketch) (eps : Q),
       heap w !! hll = Some s →
       let n := inject_Z (Z.of_N (@estimator L (precision s) (registers s))) in
       ∃ lower upper abs_error : Q,
         @calculate_metrics L hll eps w
         = (Ok (lower, @estimator L (precision s) (registers s), upper,
                abs_error), w)
         ∧ (lower == n / (1 + eps))%Q
         ∧ (upper == n / (1 - eps))%Q
         ∧ (abs_error == eps / (1 + eps) * n)%Q)
  ∧ @calculate_metrics scenario_library 1%positive 1 one_sketch_world
    = (Raise ZeroDivisionError, one_sketch_world)
  ∧ calculate_metrics_binary64 1000 1 = None
  ∧ calculate_metrics_binary64 11 0x1.47ae147ae147bp-7
    = Some (0x1.5c83cd4e93028p+3, 11%Z, 0x1.638e38e38e38fp+3,
            0x1.be1958b67ebb9p-4)%float
  ∧ (11 / (1 + 0x1.47ae147ae147bp-7) = 0x1.5c83cd4e93029p+3)%float
  ∧ (11 / (1 - 0x1.47ae147ae147bp-7) = 0x1.638e38e38e38ep+3)%float.
Proof.
  split_and!; [|reflexivity..].
  intros Hclaim.
  destruct (Hclaim scenario_library one_sketch_world 1%positive
              (empty_sketch 4) 1%Q eq_refl)
    as (lower & upper & abs_error & Hrun & _).
  discriminate Hrun.
Qed.

Section metrics_domain.
Context `{SketchLibrary}.



(** C8. [calculate_metrics] mutates nothing: whatever its outcome, the
    world after the call (every sketch of the heap, the files, the output)
    is the world before it. *)
Theorem calculate_metrics_read_only (w : world) (hll : loc) (eps : Q) :
  (calculate_metrics hll eps w).2 = w
  ∧ heap (calculate_metrics hll eps w).2 !! hll = heap w !! hll.
Proof.
  assert (Hw : (calculate_metrics hll eps w).2 = w); [|by rewrite Hw].
  destruct (heap w !! hll) as [s|] eqn:Hs.
  - rewrite (calculate_metrics_run w hll s eps Hs).
    destruct (Qeq_bool (1 + eps) 0); [done|].
    by destruct (Qeq_bool (1 - eps) 0).
  - unfold calculate_metrics, bind, hll_len. by rewrite Hs.
Qed.

End metrics_domain.




(** The error-bound scenario on doubles: for an estimate of 1000 and the
    double nearest to 0.01, the values Python prints as 990.09900990099,
    1010.1010101010102 and 9.900990099009901. *)
Example calculate_metrics_binary64_scenario :
  calculate_metrics_binary64 1000 0x1.47ae147ae147bp-7
  = Some (0x1.ef0cac5b3f5dcp+9, 1000%Z, 0x1.f90cede62433cp+9,
          0x1.3cd4e930288dfp+3)%float.
Proof. reflexivity. Qed.

(** On doubles too, a relative error of 1.0 ends in the division by zero and
    a relative error of 2.0 in a quadruple with the upper bound -1000.0. *)
Example calculate_metrics_binary64_eps_ge_1 :
  calculate_metrics_binary64 1000 1 = None
  ∧ calculate_metrics_binary64 1000 2
    = Some (0x1.4d55555555555p+8, 1000%Z, -0x1.f4p+9, 0x1.4d55555555555p+9)%float.
Proof. split; reflexivity. Qed.

(** ** The line source *)

(** The three line terminators end a line, each read as ["\n"]; [strip]
    removes the terminator and any other white space at both ends. *)
Example file_lines_universal_newlines :
  file_lines (universal_newlines false
    (py "a" ++ [CR; LF] ++ py "b" ++ [CR] ++ py "c" ++ [LF; LF] ++ py "d "
     ++ [11%N; 28%N]))
  = [py "a" ++ [LF]; py "b" ++ [LF]; py "c" ++ [LF]; [LF];
     py "d " ++ [11%N; 28%N]]
  ∧ strip (py "d " ++ [11%N; 28%N]) = py "d"
  ∧ strip [LF] = []
  ∧ strip (py "ice cream" ++ [LF]) = py "ice cream".
Proof. split_and!; reflexivity. Qed.

Lemma read_file_run (w : world) (filename : string) (content : str) :
  files w !! filename = Some content →
  read_file filename w
  = (Ok (strip <$> file_lines (universal_newlines false content)), w).
Proof. intros Hf. unfold read_file, bind, open_lines. by rewrite Hf. Qed.

(** C6, at a padded line.  For the file [" cat \t\ndog\n"] the lines are
    [" cat \t\n"] and ["dog\n"], and [read_file] yields ["cat"] and
    ["dog"]: [line.strip()] removes the space before "cat" and the space and
    tab after it together with the terminator.  Removing the terminator
    only would yield [" cat \t"] and ["dog"], which is not what is
    yielded. *)
Theorem read_file_strips_surrounding_whitespace :
  file_lines (universal_newlines false
     ([32%N] ++ py "cat" ++ [32%N; 9%N; LF] ++ py "dog" ++ [LF]))
  = [[32%N] ++ py "cat" ++ [32%N; 9%N; LF]; py "dog" ++ [LF]]
  ∧ read_file "words.txt" padded_world = (Ok [py "cat"; py "dog"], padded_world)
  ∧ (read_file "words.txt" padded_world).1
    ≠ Ok [[32%N] ++ py "cat" ++ [32%N; 9%N]; py "dog"].
Proof. split_and!; [reflexivity | reflexivity | discriminate]. Qed.

(** ** Adding an item twice *)

Section add_twice.
Context `{SketchLibrary}.

Lemma add_item_idempotent (x : str) (s : Sketch) :
  add_item x (add_item x s) = add_item x s.
Proof.
  destruct s as [p regs]. unfold add_item. simpl.
  set (j := Z.to_nat _). set (rank := rho _ _). f_equal.
  destruct (decide (j < length regs)) as [Hlt|Hge].
  - rewrite list_lookup_total_insert_eq by done.
    rewrite list_insert_insert_eq. f_equal. lia.
  - rewrite (list_insert_ge regs) by lia. by rewrite list_insert_ge by lia.
Qed.

Lemma set_heap_heap (w : world) : set_heap (heap w) w = w.
Proof. by destruct w. Qed.

(** C7. For every item [x] and every world, in the world reached by
    [hll.add(x)] a second [hll.add(x)] changes nothing: the world, and so
    the state of the sketch, is the same after it, and [len(hll)] returns
    what it returned before it. *)
Theorem hll_add_twice (w : world) (hll : loc) (x : str) :
  let w1 := (hll_add hll x w).2 in
  let w2 := (hll_add hll x w1).2 in
  w2 = w1
  ∧ heap w2 !! hll = heap w1 !! hll
  ∧ (hll_len hll w2).1 = (hll_len hll w1).1.
Proof.
  intros w1 w2.
  assert (Hsame : w2 = w1); [|by rewrite Hsame].
  unfold w2, w1, hll_add.
  destruct (heap w !! hll) as [s|] eqn:Hs; simpl.
  - rewrite lookup_insert_eq. simpl.
    by rewrite insert_insert_eq, add_item_idempotent.
  - by rewrite Hs.
Qed.

End add_twice.

(** ** Frames: which objects an operation can change *)

Section frames.
Context `{SketchLibrary}.

Lemma fresh_heap_None (w : world) : heap w !! fresh (dom (heap w)) = None.
Proof. apply not_elem_of_dom, is_fresh. Qed.

Lemma alloc_run (s : Sketch) (w : world) :
  ∃ l, alloc s w = (Ok l, set_heap (<[l := s]> (heap w)) w)
       ∧ heap w !! l = None.
Proof. exists (fresh (dom (heap w))). split; [done | apply fresh_heap_None]. Qed.

(** [deepcopy] leaves every live object as it was and returns a new one. *)
Lemma deepcopy_run (hll : loc) (s : Sketch) (w : world) :
  heap w !! hll = Some s →
  ∃ l, deepcopy hll w = (Ok l, set_heap (<[l := s]> (heap w)) w)
       ∧ heap w !! l = None.
Proof. intros Hs. unfold deepcopy. rewrite Hs. apply alloc_run. Qed.

(** [self.update(other)] writes [self] only. *)
Lemma hll_update_frame (self other l : loc) (w : world) :
  l ≠ self → heap (hll_update self other w).2 !! l = heap w !! l.
Proof.
  intros Hne. unfold hll_update.
  destruct (heap w !! self) as [a|]; [|done].
  destruct (heap w !! other) as [b|]; [|done].
  destruct (decide (precision a = precision b)); [|done].
  simpl. by rewrite lookup_insert_ne.
Qed.

(** C5. Building the combined sketch mutates neither input.  When
    [hll_en] and [hll_dk] are live sketches, after
    [hll_combined = copy.deepcopy(hll_en); hll_combined.update(hll_dk)]
    both hold the state they held before, as does every other object that
    existed; and when the precisions agree, the merge lands in an object
    that did not exist before, whose registers are the element-wise maximum
    of the two inputs. *)
Theorem combine_preserves_inputs (w : world) (hll_en hll_dk : loc)
    (en dk : Sketch) :
  heap w !! hll_en = Some en →
  heap w !! hll_dk = Some dk →
  let w' := (combine hll_en hll_dk w).2 in
  heap w' !! hll_en = Some en
  ∧ heap w' !! hll_dk = Some dk
  ∧ (∀ l, is_Some (heap w !! l) → heap w' !! l = heap w !! l)
  ∧ (precision en = precision dk →
     ∃ hll_combined,
       combine hll_en hll_dk w = (Ok hll_combined, w')
       ∧ heap w !! hll_combined = None
       ∧ heap w' !! hll_combined
         = Some {| precision := precision en;
                   registers := zip_with Nat.max (registers en) (registers dk) |}).
Proof.
  intros Hen Hdk w'.
  destruct (deepcopy_run hll_en en w Hen) as (l & Hcopy & Hfresh).
  set (w1 := set_heap (<[l := en]> (heap w)) w) in *.
  assert (Hl1 : heap w1 !! l = Some en) by apply lookup_insert_eq.
  assert (Hold : ∀ l', is_Some (heap w !! l') → heap w1 !! l' = heap w !! l').
  { intros l' [s Hs]. unfold w1. simpl. apply lookup_insert_ne. congruence. }
  assert (Hdk1 : heap w1 !! hll_dk = Some dk) by (rewrite Hold; eauto).
  assert (Hw' : w' = (hll_update l hll_dk w1).2).
  { unfold w', combine, bind. rewrite Hcopy.
    by destruct (hll_update l hll_dk w1) as [[[]|e] w2]. }
  assert (Hframe : ∀ l', is_Some (heap w !! l') → heap w' !! l' = heap w !! l').
  { intros l' Hl'. rewrite Hw', hll_update_frame; [by apply Hold|].
    destruct Hl' as [s Hs]. congruence. }
  split_and!.
  - rewrite Hframe; eauto.
  - rewrite Hframe; eauto.
  - exact Hframe.
  - intros Hprec. exists l.
    assert (Hupd : hll_update l hll_dk w1
                   = (Ok tt, set_heap (<[l := merge en dk]> (heap w1)) w1)).
    { unfold hll_update. rewrite Hl1, Hdk1. by rewrite decide_True. }
    split_and!.
    + unfold w', combine, bind. by rewrite Hcopy, Hupd.
    + exact Hfresh.
    + rewrite Hw', Hupd. simpl. apply lookup_insert_eq.
Qed.

End frames.

(** ** Ingestion *)

Section ingestion.
Context `{SketchLibrary}.

(** The loop of [create_hll] folds [add] over the yielded items. *)
Lemma for_each_hll_add (hll : loc) (items : list (list N)) :
  ∀ (w : world) (s : Sketch),
    heap w !! hll = Some s →
    for_each items (λ substring, hll_add hll substring) w
    = (Ok tt, set_heap (<[hll := foldl (λ s x, add_item x s) s items]> (heap w)) w).
Proof.
  induction items as [|x items IH]; intros w s Hs; simpl.
  - unfold ret. by rewrite insert_id, set_heap_heap.
  - unfold bind at 1. unfold hll_add at 1. rewrite Hs.
    rewrite (IH _ (add_item x s)) by apply lookup_insert_eq.
    simpl. by rewrite insert_insert_eq.
Qed.

Lemma find_substrings_from_file_run (w : world) (filename : string)
    (content : str) :
  files w !! filename = Some content →
  find_substrings_from_file filename w
  = (Ok (line ← strip <$> file_lines (universal_newlines false content);
         obtain_substrings line), w).
Proof.
  intros Hf. unfold find_substrings_from_file, bind.
  by rewrite (read_file_run w filename content Hf).
Qed.

Lemma HyperLogLog_run (w : world) (eps : Q) (p : nat) :
  (0 < eps)%Q → (eps < 1)%Q → choose_precision eps = Some p → 4 ≤ p →
  HyperLogLog eps w
  = (Ok (fresh (dom (heap w))),
     set_heap (<[fresh (dom (heap w)) := empty_sketch p]> (heap w)) w).
Proof.
  intros Hpos Hlt Hp Hge. unfold HyperLogLog.
  assert (H0 : Qle_bool eps 0 = false).
  { destruct (Qle_bool eps 0) eqn:E; [|done]. apply Qle_bool_iff in E. lra. }
  assert (H1 : Qle_bool 1 eps = false).
  { destruct (Qle_bool 1 eps) eqn:E; [|done]. apply Qle_bool_iff in E. lra. }
  rewrite H0, H1, Hp. cbn [negb andb].
  by rewrite (proj2 (Nat.leb_le 4 p) Hge).
Qed.


End ingestion.

Section first_item.
Context `{SketchLibrary}.




(** [add] and [update] keep the number of registers. *)
Lemma add_item_length (x : str) (s : Sketch) :
  length (registers (add_item x s)) = length (registers s)
  ∧ precision (add_item x s) = precision s.
Proof. split; [apply length_insert | done]. Qed.

Lemma merge_length (a b : Sketch) :
  length (registers a) = length (registers b) →
  length (registers (merge a b)) = length (registers a).
Proof. intros Hlen. simpl. rewrite length_zip_with. lia. Qed.





End first_item.

Section create.
Context `{SketchLibrary}.

(** The run of [create_hll] on an existing file, for a relative error the
    construction accepts. *)
Lemma create_hll_run (w : world) (filename : string) (content : str)
    (eps : Q) (p : nat) :
  files w !! filename = Some content →
  (0 < eps)%Q → (eps < 1)%Q → choose_precision eps = Some p → 4 ≤ p →
  let substrings :=
    line ← strip <$> file_lines (universal_newlines false content);
    obtain_substrings line in
  let hll := fresh (dom (heap w)) in
  create_hll filename eps w
  = (Ok hll,
     set_heap (<[hll := foldl (λ s x, add_item x s) (empty_sketch p)
                              ([] :: substrings)]> (heap w)) w).
Proof.
  intros Hf Hpos Hlt Hp Hge substrings hll.
  unfold create_hll. unfold bind at 1.
  rewrite (HyperLogLog_run w eps p Hpos Hlt Hp Hge). fold hll.
  unfold bind at 1. unfold hll_add at 1.
  cbn [heap set_heap]. rewrite lookup_insert_eq.
  unfold bind at 1.
  rewrite (find_substrings_from_file_run _ filename content) by exact Hf.
  fold substrings. unfold bind at 1.
  rewrite (for_each_hll_add hll substrings _ (add_item [] (empty_sketch p)))
    by apply lookup_insert_eq.
  unfold ret. cbn [heap set_heap files stdout foldl].
  by rewrite !insert_insert_eq.
Qed.


End create.

(** ** The script *)

Section script.
Context `{SketchLibrary}.

Lemma bind_run_Ok {A B} (m : M A) (k : A → M B) (w w1 : world) (a : A) :
  m w = (Ok a, w1) → bind m k w = k a w1.
Proof. intros Hm. unfold bind. by rewrite Hm. Qed.

Lemma precision_foldl_add_item (items : list (list N)) :
  ∀ s : Sketch, precision (foldl (λ s x, add_item x s) s items) = precision s.
Proof. induction items as [|x items IH]; intros s; [done|]. simpl. by rewrite IH. Qed.

Lemma choose_precision_main : choose_precision (1 # 100) = Some 14.
Proof. by vm_compute. Qed.

Lemma hll_len_run (w : world) (hll : loc) (s : Sketch) :
  heap w !! hll = Some s →
  hll_len hll w = (Ok (estimator (precision s) (registers s)), w).
Proof. intros Hs. unfold hll_len. by rewrite Hs. Qed.

(** The run of lines 144-145 on two live sketches of equal precision. *)
Lemma combine_run (w : world) (hll_en hll_dk : loc) (en dk : Sketch) :
  heap w !! hll_en = Some en →
  heap w !! hll_dk = Some dk →
  precision en = precision dk →
  combine hll_en hll_dk w
  = (Ok (fresh (dom (heap w))),
     set_heap (<[fresh (dom (heap w)) := merge en dk]> (heap w)) w).
Proof.
  intros Hen Hdk Hprec. unfold combine, bind, deepcopy, alloc. rewrite Hen.
  set (l := fresh (dom (heap w))).
  assert (Hl : l ≠ hll_dk).
  { intros Heq. pose proof (fresh_heap_None w) as Hnone. fold l in Hnone.
    rewrite Heq in Hnone. congruence. }
  unfold hll_update. cbn [heap set_heap].
  rewrite lookup_insert_eq, lookup_insert_ne, Hdk by done.
  rewrite decide_True by done. unfold ret. cbn [heap set_heap files stdout].
  by rewrite insert_insert_eq.
Qed.

(** The run of lines 147-151 on a live combined sketch. *)
Lemma report_combined_run (w : world) (hll_combined : loc) (s : Sketch)
    (dk_abs_err en_abs_err : Q) :
  heap w !! hll_combined = Some s →
  let comb_est := estimator (precision s) (registers s) in
  report_combined hll_combined dk_abs_err en_abs_err w
  = (Ok tt,
     {| files := files w; heap := heap w;
        stdout := stdout w ++
          [Estimates "Combined"
             (float_of_int comb_est - (dk_abs_err + en_abs_err))
             comb_est
             (float_of_int comb_est + (dk_abs_err + en_abs_err))] |}).
Proof.
  intros Hs comb_est. unfold report_combined.
  rewrite !(bind_run_Ok _ _ w w comb_est) by by apply hll_len_run.
  reflexivity.
Qed.

End script.

Section script_claims.
Context `{SketchLibrary}.

(** C4. Whenever the two word lists exist, the script completes, and the
    block it prints for the combined sketch is built from the sum of the two
    absolute errors that [calculate_metrics] reports for the Danish and the
    English sketch: its lower bound is the merged sketch's estimate minus
    that sum, its estimate is the merged sketch's estimate, and its upper
    bound is that estimate plus the sum. *)
Theorem main_combined_report (w : world) (dk_content en_content : str) :
  files w !! "words_danish.txt"%string = Some dk_content →
  files w !! "words_english.txt"%string = Some en_content →
  ∃ (w' : world) (hll_dk hll_en hll_combined : loc) (dk en : Sketch)
    (dk_low dk_upp dk_abs_err en_low en_upp en_abs_err : Q)
    (dk_est en_est comb_est : N),
    main w = (Ok tt, w')
    ∧ heap w' !! hll_dk = Some dk
    ∧ heap w' !! hll_en = Some en
    ∧ heap w' !! hll_combined = Some (merge en dk)
    ∧ calculate_metrics hll_dk (1 # 100) w'
      = (Ok (dk_low, dk_est, dk_upp, dk_abs_err), w')
    ∧ calculate_metrics hll_en (1 # 100) w'
      = (Ok (en_low, en_est, en_upp, en_abs_err), w')
    ∧ hll_len hll_combined w' = (Ok comb_est, w')
    ∧ let comb_abs_err := (dk_abs_err + en_abs_err)%Q in
      stdout w'
      = stdout w ++
        [Estimates "Danish" dk_low dk_est dk_upp;
         Estimates "English" en_low en_est en_upp;
         Estimates "Combined" (inject_Z (Z.of_N comb_est) - comb_abs_err)
                   comb_est (inject_Z (Z.of_N comb_est) + comb_abs_err);
         BlankLine].
Proof.
  intros Hdk Hen.
  set (eps := (1 # 100)%Q).
  assert (Hpos : (0 < eps)%Q) by reflexivity.
  assert (Hlt : (eps < 1)%Q) by reflexivity.
  assert (H14 : 4 ≤ 14) by lia.
  (* the Danish sketch *)
  pose proof (create_hll_run w _ dk_content eps 14 Hdk Hpos Hlt
                choose_precision_main H14) as Hrun1.
  cbv zeta in Hrun1.
  set (hll_dk := fresh (dom (heap w))) in *.
  set (dk := foldl _ (empty_sketch 14) _) in Hrun1.
  set (w1 := set_heap (<[hll_dk := dk]> (heap w)) w) in *.
  (* the English sketch *)
  pose proof (create_hll_run w1 _ en_content eps 14 Hen Hpos Hlt
                choose_precision_main H14) as Hrun2.
  cbv zeta in Hrun2.
  set (hll_en := fresh (dom (heap w1))) in *.
  set (en := foldl _ (empty_sketch 14) _) in Hrun2.
  set (w2 := set_heap (<[hll_en := en]> (heap w1)) w1) in *.
  assert (Hne : hll_en ≠ hll_dk).
  { intros Heq. pose proof (fresh_heap_None w1) as Hnone. fold hll_en in Hnone.
    rewrite Heq in Hnone. unfold w1 in Hnone. cbn [heap set_heap] in Hnone.
    by rewrite lookup_insert_eq in Hnone. }
  assert (Hdk2 : heap w2 !! hll_dk = Some dk).
  { unfold w2, w1. cbn [heap set_heap].
    by rewrite lookup_insert_ne, lookup_insert_eq. }
  assert (Hen2 : heap w2 !! hll_en = Some en) by apply lookup_insert_eq.
  assert (Hprec : precision en = precision dk).
  { unfold en, dk. by rewrite !precision_foldl_add_item. }
  (* the two reports *)
  set (dk_est := estimator (precision dk) (registers dk)).
  set (en_est := estimator (precision en) (registers en)).
  set (low := λ n : N, (1 / (1 + eps) * float_of_int n)%Q).
  set (upp := λ n : N, (1 / (1 - eps) * float_of_int n)%Q).
  set (err := λ n : N, (eps / (1 + eps) * float_of_int n)%Q).
  assert (Hmetrics : ∀ (w0 : world) (hll : loc) (s : Sketch),
             heap w0 !! hll = Some s →
             let n := estimator (precision s) (registers s) in
             calculate_metrics hll eps w0 = (Ok (low n, n, upp n, err n), w0)).
  { intros w0 hll s Hs. by rewrite (calculate_metrics_run w0 hll s eps Hs). }
  set (w3 := {| files := files w2; heap := heap w2;
                stdout := stdout w2 ++ [Estimates "Danish" (low dk_est) dk_est
                                          (upp dk_est)] |}).
  set (w4 := {| files := files w3; heap := heap w3;
                stdout := stdout w3 ++ [Estimates "English" (low en_est) en_est
                                          (upp en_est)] |}).
  (* the combined sketch *)
  pose proof (combine_run w4 hll_en hll_dk en dk Hen2 Hdk2 Hprec) as Hrun5.
  set (hll_combined := fresh (dom (heap w4))) in *.
  set (w5 := set_heap (<[hll_combined := merge en dk]> (heap w4)) w4) in *.
  assert (Hcomb5 : heap w5 !! hll_combined = Some (merge en dk))
    by apply lookup_insert_eq.
  assert (Hfresh : heap w2 !! hll_combined = None) by apply (fresh_heap_None w4).
  assert (Hdk5 : heap w5 !! hll_dk = Some dk).
  { unfold w5. cbn [heap set_heap]. rewrite lookup_insert_ne; [done|congruence]. }
  assert (Hen5 : heap w5 !! hll_en = Some en).
  { unfold w5. cbn [heap set_heap]. rewrite lookup_insert_ne; [done|congruence]. }
  pose proof (report_combined_run w5 hll_combined (merge en dk)
                (err dk_est) (err en_est) Hcomb5) as Hrun6.
  cbv zeta in Hrun6.
  set (comb_est := estimator (precision (merge en dk)) (registers (merge en dk))) in *.
  set (w6 := {| files := files w5; heap := heap w5; stdout := _ |}) in Hrun6.
  set (w7 := {| files := files w6; heap := heap w6;
                stdout := stdout w6 ++ [BlankLine] |}).
  exists w7, hll_dk, hll_en, hll_combined, dk, en.
  exists (low dk_est), (upp dk_est), (err dk_est).
  exists (low en_est), (upp en_est), (err en_est).
  exists dk_est, en_est, comb_est.
  split_and!.
  - unfold main. fold eps.
    rewrite (bind_run_Ok _ _ w w1 hll_dk Hrun1).
    rewrite (bind_run_Ok _ _ w1 w2 hll_en Hrun2).
    rewrite (bind_run_Ok _ _ w2 w2 _ (Hmetrics w2 hll_dk dk Hdk2)).
    cbv beta iota. unfold bind at 1. unfold print_estimates at 1. fold w3.
    rewrite (bind_run_Ok _ _ w3 w3 _ (Hmetrics w3 hll_en en Hen2)).
    cbv beta iota. unfold bind at 1. unfold print_estimates at 1. fold w4.
    rewrite (bind_run_Ok _ _ w4 w5 hll_combined Hrun5).
    rewrite (bind_run_Ok _ _ w5 w6 tt Hrun6).
    reflexivity.
  - exact Hdk5.
  - exact Hen5.
  - exact Hcomb5.
  - exact (Hmetrics w7 hll_dk dk Hdk5).
  - exact (Hmetrics w7 hll_en en Hen5).
  - exact (hll_len_run w7 hll_combined (merge en dk) Hcomb5).
  - cbv zeta. unfold w7, w6, w5, w4, w3, w2, w1.
    cbn [stdout set_heap]. by rewrite <- !app_assoc.
Qed.

End script_claims.

(** ** The theorems at concrete inputs *)

(** Combining the two sketches of [two_sketch_world]. *)
Lemma combine_preserves_inputs_sample :
  let w' := (combine 2%positive 1%positive two_sketch_world).2 in
  heap w' !! 2%positive = heap two_sketch_world !! 2%positive
  ∧ heap w' !! 1%positive = heap two_sketch_world !! 1%positive
  ∧ ∃ hll_combined,
      combine 2%positive 1%positive two_sketch_world = (Ok hll_combined, w')
      ∧ heap two_sketch_world !! hll_combined = None.
Proof.
  destruct (combine_preserves_inputs two_sketch_world
              2%positive 1%positive
              (@add_item sample_library (py "cat") (empty_sketch 4))
              (@add_item sample_library (py "kat") (empty_sketch 4))
              eq_refl eq_refl)
    as (Hen & Hdk & _ & Hmerge).
  destruct (Hmerge eq_refl) as (hll_combined & Hrun & Hfresh & _).
  split_and!; [exact Hen | exact Hdk |].
  exists hll_combined. split; [exact Hrun | exact Hfresh].
Defined.


(** The script on [sample_world]: the third printed block is the combined
    one, the last output the blank line. *)
Lemma main_combined_report_sample :
  ∃ (w' : world) (dk_abs_err en_abs_err : Q) (comb_est : N),
    @main sample_library sample_world = (Ok tt, w')
    ∧ last (stdout w') = Some BlankLine
    ∧ stdout w' !! 2
      = Some (Estimates "Combined"
                (inject_Z (Z.of_N comb_est) - (dk_abs_err + en_abs_err)) comb_est
                (inject_Z (Z.of_N comb_est) + (dk_abs_err + en_abs_err))).
Proof.
  destruct (@main_combined_report sample_library sample_world
              (py "kat" ++ [LF] ++ py "hund" ++ [LF])
              (py "cat" ++ [CR; LF] ++ py "dog") eq_refl eq_refl)
    as (w' & hll_dk & hll_en & hll_combined & dk & en & dk_low & dk_upp
        & dk_abs_err & en_low & en_upp & en_abs_err & dk_est & en_est
        & comb_est & Hrun & _ & _ & _ & _ & _ & _ & Hout).
  exists w', dk_abs_err, en_abs_err, comb_est.
  split_and!; [exact Hrun | by rewrite Hout | by rewrite Hout].
Defined.

(** * Further properties *)

(** ** [strip] *)

Lemma lstrip_spaces_app (pre t : str) :
  Forall (λ c, is_space c = true) pre → lstrip (pre ++ t) = lstrip t.
Proof.
  induction 1 as [|c pre Hc _ IH]; [done|]. simpl. by rewrite Hc.
Qed.

Lemma lstrip_spaces (pre : str) :
  Forall (λ c, is_space c = true) pre → lstrip pre = [].
Proof.
  intros Hpre. rewrite <- (app_nil_r pre). by rewrite lstrip_spaces_app.
Qed.

Lemma lstrip_head (s : str) :
  (∀ c, head s = Some c → is_space c = false) → lstrip s = s.
Proof.
  destruct s as [|c s]; [done|]. intros Hhead. simpl.
  by rewrite (Hhead c eq_refl).
Qed.

(** [lstrip] removes a prefix of white space and stops at the first other
    character. *)
Lemma lstrip_decompose (s : str) :
  ∃ pre, s = pre ++ lstrip s
         ∧ Forall (λ c, is_space c = true) pre
         ∧ ∀ c, head (lstrip s) = Some c → is_space c = false.
Proof.
  induction s as [|c s (pre & Heq & Hpre & Hhead)].
  - exists []. by split_and!.
  - simpl. destruct (is_space c) eqn:Hc.
    + exists (c :: pre). split_and!; [by rewrite Heq at 1 | by constructor | done].
    + exists []. split_and!; [done | constructor |].
      intros c' [= <-]. exact Hc.
Qed.

Lemma rstrip_decompose (s : str) :
  ∃ suf, s = rstrip s ++ suf
         ∧ Forall (λ c, is_space c = true) suf
         ∧ ∀ c, last (rstrip s) = Some c → is_space c = false.
Proof.
  destruct (lstrip_decompose (reverse s)) as (pre & Heq & Hpre & Hhead).
  exists (reverse pre). unfold rstrip. split_and!.
  - rewrite <- reverse_app, <- Heq. by rewrite reverse_involutive.
  - by apply Forall_reverse.
  - intros c. rewrite last_reverse. apply Hhead.
Qed.

(** What [strip] returns is determined by the shape of its argument: white
    space, a trimmed middle, white space. *)
Lemma strip_unique (pre m suf : str) :
  Forall (λ c, is_space c = true) pre →
  Forall (λ c, is_space c = true) suf →
  trimmed m →
  strip (pre ++ m ++ suf) = m.
Proof.
  intros Hpre Hsuf [Hhead Hlast]. unfold strip.
  rewrite lstrip_spaces_app by done.
  destruct m as [|c m].
  - simpl. by rewrite lstrip_spaces.
  - rewrite lstrip_head by (intros c' [= <-]; by apply Hhead).
    unfold rstrip. rewrite reverse_app, lstrip_spaces_app by by apply Forall_reverse.
    rewrite lstrip_head; [apply reverse_involutive|].
    intros c'. rewrite head_reverse. apply Hlast.
Qed.

Lemma strip_decompose (s : str) :
  ∃ pre suf, s = pre ++ strip s ++ suf
             ∧ Forall (λ c, is_space c = true) pre
             ∧ Forall (λ c, is_space c = true) suf
             ∧ trimmed (strip s).
Proof.
  destruct (lstrip_decompose s) as (pre & Heq & Hpre & Hhead).
  destruct (rstrip_decompose (lstrip s)) as (suf & Heq' & Hsuf & Hlast).
  exists pre, suf. unfold strip. split_and!; [|done|done|split; [|done]].
  - by rewrite <- Heq', <- Heq.
  - intros c Hc. apply Hhead. rewrite Heq'.
    destruct (rstrip (lstrip s)); [done|]. exact Hc.
Qed.

Lemma strip_elem_of (c : N) (s : str) : c ∈ strip s → c ∈ s.
Proof.
  destruct (strip_decompose s) as (pre & suf & Heq & _).
  intros Hin. rewrite Heq, !elem_of_app. auto.
Qed.

Lemma strip_snoc_space (c : N) (s : str) :
  is_space c = true → strip (s ++ [c]) = strip s.
Proof.
  intros Hc.
  destruct (strip_decompose s) as (pre & suf & Heq & Hpre & Hsuf & Htrim).
  rewrite Heq at 1. rewrite <- !(assoc_L (++)).
  apply strip_unique; [done | | done].
  apply Forall_app. split; [done | by constructor].
Qed.

Lemma strip_trimmed (s : str) : trimmed s → strip s = s.
Proof.
  intros Htrim. rewrite <- (app_nil_r s) at 1.
  by apply (strip_unique [] s []).
Qed.

(** ** The lines of a text file *)

Lemma universal_newlines_no_CR (s : str) :
  ∀ after_cr, CR ∉ universal_newlines after_cr s.
Proof.
  induction s as [|c s IH]; intros after_cr; simpl; [by apply not_elem_of_nil|].
  destruct (N.eqb_spec c CR) as [->|Hcr].
  - apply not_elem_of_cons. split; [done | apply IH].
  - destruct (N.eqb_spec c LF) as [->|Hlf].
    + destruct after_cr; [apply IH|].
      apply not_elem_of_cons. split; [done | apply IH].
    + apply not_elem_of_cons. split; [congruence | apply IH].
Qed.

Lemma universal_newlines_id (s : str) :
  CR ∉ s → universal_newlines false s = s.
Proof.
  induction s as [|c s IH]; [done|]. intros Hcr.
  apply not_elem_of_cons in Hcr as [Hc Hs]. simpl.
  destruct (N.eqb_spec c CR) as [->|_]; [done|].
  destruct (N.eqb_spec c LF) as [->|_]; by rewrite IH.
Qed.

(** The lines, put end to end, are the text. *)
Lemma concat_file_lines (s : str) : mjoin (file_lines s) = s.
Proof.
  induction s as [|c s IH]; [done|]. simpl.
  destruct (c =? LF)%N; simpl; [by rewrite IH|].
  destruct (file_lines s) as [|line lines]; simpl in *; by rewrite <- IH.
Qed.

(** A line is a body without ["\n"], followed by ["\n"] unless it is the
    unterminated rest of the file. *)
Lemma file_lines_shape (s : str) :
  Forall (λ line, ∃ body, (LF ∉ body) ∧ (line = body ++ [LF] ∨ line = body))
         (file_lines s).
Proof.
  induction s as [|c s IH]; simpl; [constructor|].
  destruct (N.eqb_spec c LF) as [->|Hlf].
  - constructor; [|done]. exists []. split; [apply not_elem_of_nil | by left].
  - destruct (file_lines s) as [|line lines].
    + constructor; [|done]. exists [c]. split; [|by right].
      apply not_elem_of_cons. split; [congruence | apply not_elem_of_nil].
    + apply Forall_cons in IH as [(body & Hbody & Hline) Hlines].
      constructor; [|done]. exists (c :: body). split.
      * apply not_elem_of_cons. split; [congruence | done].
      * destruct Hline as [-> | ->]; [by left | by right].
Qed.

Lemma file_lines_terminated (word rest : str) :
  LF ∉ word → file_lines (word ++ LF :: rest) = (word ++ [LF]) :: file_lines rest.
Proof.
  induction word as [|c word IH]; [done|]. intros Hlf.
  apply not_elem_of_cons in Hlf as [Hc Hword]. simpl.
  destruct (N.eqb_spec c LF) as [->|_]; [done|]. by rewrite IH.
Qed.

Lemma file_lines_word_list (words : list (list N)) :
  Forall (λ word, LF ∉ word) words →
  file_lines (mjoin ((λ word, word ++ [LF]) <$> words))
  = (λ word, word ++ [LF]) <$> words.
Proof.
  induction 1 as [|word words Hword _ IH]; [done|].
  rewrite fmap_cons.
  change (mjoin ((word ++ [LF]) :: ((λ word, word ++ [LF]) <$> words)))
    with ((word ++ [LF]) ++ mjoin ((λ word, word ++ [LF]) <$> words)).
  rewrite <- (assoc_L (++)).
  change ([LF] ++ ?l) with (LF :: l).
  by rewrite file_lines_terminated, IH.
Qed.

(** X1. The lines [read_file] yields for an existing file, one per line of
    the file, hold no line terminator, neither ["\n"] nor ["\r"], and have
    no white space at either end; stripping them again changes nothing. *)
Theorem read_file_lines_clean (w : world) (filename : string) (content : str) :
  files w !! filename = Some content →
  ∃ lines,
    read_file filename w = (Ok lines, w)
    ∧ length lines = length (file_lines (universal_newlines false content))
    ∧ Forall (λ line, (LF ∉ line) ∧ (CR ∉ line) ∧ trimmed line ∧ strip line = line)
             lines.
Proof.
  intros Hf. eexists. split; [by apply read_file_run|].
  split; [apply length_fmap|].
  apply Forall_fmap, Forall_forall. intros raw Hraw. simpl.
  assert (Htrim : trimmed (strip raw)).
  { by destruct (strip_decompose raw) as (? & ? & _ & _ & _ & ?). }
  split_and!; [| |done|by apply strip_trimmed].
  - pose proof (file_lines_shape (universal_newlines false content)) as Hshape.
    rewrite Forall_forall in Hshape.
    destruct (Hshape raw Hraw) as (body & Hbody & [-> | ->]).
    + rewrite strip_snoc_space by done. intros Hin. by apply strip_elem_of in Hin.
    + intros Hin. by apply strip_elem_of in Hin.
  - intros Hin%strip_elem_of.
    apply (universal_newlines_no_CR content false).
    rewrite <- concat_file_lines. apply list_elem_of_join. eauto.
Qed.

(** X2. A word list written one word per line, each line ended by ["\n"],
    is read back as it was written, provided no word holds a line
    terminator or starts or ends with white space. *)
Theorem read_file_word_list (w : world) (filename : string)
    (words : list (list N)) :
  Forall (λ word, (LF ∉ word) ∧ (CR ∉ word) ∧ trimmed word) words →
  files w !! filename = Some (mjoin ((λ word, word ++ [LF]) <$> words)) →
  read_file filename w = (Ok words, w).
Proof.
  intros Hwords Hf. rewrite (read_file_run w filename _ Hf).
  rewrite universal_newlines_id.
  - rewrite file_lines_word_list
      by (eapply Forall_impl; [exact Hwords|]; by intros word (? & _)).
    do 2 f_equal. clear Hf.
    induction Hwords as [|word words (_ & _ & Htrim) _ IH]; [done|].
    rewrite !fmap_cons, IH. f_equal.
    apply (strip_unique [] word [LF]); [done | by repeat constructor | done].
  - intros Hin. apply list_elem_of_join in Hin as (line & Hin & Hline).
    apply list_elem_of_fmap in Hline as (word & -> & Hword).
    rewrite Forall_forall in Hwords. destruct (Hwords word Hword) as (_ & Hcr & _).
    apply elem_of_app in Hin as [Hin | Hin%list_elem_of_singleton]; done.
Qed.

(** ** More on the substring generator *)

(** X3. A string is yielded by [obtain_substrings w] exactly when it is a
    non-empty contiguous part of [w]: when [w] is some prefix, the string,
    and some suffix. *)
Theorem obtain_substrings_elem_of (w s : str) :
  s ∈ obtain_substrings w ↔ s ≠ [] ∧ ∃ pre suf, w = pre ++ s ++ suf.
Proof.
  rewrite obtain_substrings_index_pairs, list_elem_of_fmap. split.
  - intros ([j i] & -> & Hin%elem_of_index_pairs). simpl. split.
    + by apply slice_nonempty.
    + exists (take j w), (drop (i - j) (drop j w)). unfold slice.
      by rewrite take_drop, take_drop.
  - intros (Hne & pre & suf & ->).
    exists (length pre, length pre + length s). split.
    + simpl. unfold slice. rewrite drop_app_length.
      replace (length pre + length s - length pre) with (length s) by lia.
      by rewrite take_app_length.
    + apply elem_of_index_pairs. rewrite !length_app.
      destruct s; [done|]. simpl. lia.
Qed.

Lemma slice_app_le (j i : nat) (w rest : str) :
  i ≤ length w → slice j i (w ++ rest) = slice j i w.
Proof.
  intros Hi. unfold slice.
  destruct (decide (j ≤ i)) as [Hji|Hji].
  - rewrite drop_app_le by lia. rewrite take_app_le; [done|].
    rewrite length_drop. lia.
  - replace (i - j) with 0 by lia. done.
Qed.

(** X4. The yields for a word with one more character are the yields for
    the word, in the same order, followed by the suffixes of the longer
    word from the longest to the last character. *)
Theorem obtain_substrings_snoc (w : str) (c : N) :
  obtain_substrings (w ++ [c])
  = obtain_substrings w
    ++ ((λ j, drop j (w ++ [c])) <$> seq 0 (S (length w))).
Proof.
  unfold obtain_substrings. rewrite length_app. simpl length.
  rewrite Nat.add_1_r, seq_S, bind_app, bind_singleton. f_equal.
  - apply Forall_bind_ext, Forall_forall. intros i Hi%elem_of_seq.
    apply Forall_bind_ext, Forall_forall. intros j _.
    f_equal. apply slice_app_le. lia.
  - change (1 + length w) with (S (length w)).
    generalize (seq 0 (S (length w))) as js.
    induction js as [|j js IH]; [done|].
    rewrite bind_cons, fmap_cons, IH. simpl. f_equal.
    unfold slice. apply take_ge. rewrite length_drop, length_app. simpl. lia.
Qed.

Lemma slice_lookup_0 (j i : nat) (w : str) :
  j < i → slice j i w !! 0 = w !! j.
Proof.
  intros Hji. unfold slice. rewrite lookup_take_lt by lia.
  rewrite lookup_drop. f_equal. lia.
Qed.

Lemma length_slice (j i : nat) (w : str) :
  i ≤ length w → length (slice j i w) = i - j.
Proof. intros Hi. unfold slice. rewrite length_take, length_drop. lia. Qed.

(** X5. The yields of [obtain_substrings w] are pairwise different exactly
    when the characters of [w] are; then the number of distinct substrings
    is the number of yields, [n * (n + 1) / 2]. *)
Theorem obtain_substrings_NoDup (w : str) :
  (NoDup (obtain_substrings w) ↔ NoDup w)
  ∧ (NoDup w →
     size (list_to_set (obtain_substrings w) : gset (list N))
     = length w * (length w + 1) / 2).
Proof.
  assert (Hback : NoDup w → NoDup (obtain_substrings w)).
  { intros Hw. rewrite obtain_substrings_index_pairs.
    apply NoDup_fmap_2_strong; [|apply NoDup_index_pairs].
    intros [j i] [j' i'] Hin%elem_of_index_pairs Hin'%elem_of_index_pairs Heq.
    simpl in Heq.
    assert (Hlen : i - j = i' - j').
    { rewrite <- (length_slice j i w), <- (length_slice j' i' w) by lia.
      by rewrite Heq. }
    assert (Hhead : w !! j = w !! j').
    { rewrite <- (slice_lookup_0 j i w), <- (slice_lookup_0 j' i' w) by lia.
      by rewrite Heq. }
    destruct (lookup_lt_is_Some_2 w j) as [c Hc]; [lia|].
    assert (j = j') by (eapply NoDup_lookup; [done | done | congruence]).
    f_equal; lia. }
  split; [split; [|done]|].
  - intros Hsubs. apply NoDup_alt. intros a b c Ha Hb.
    rewrite obtain_substrings_index_pairs in Hsubs.
    pose proof (lookup_lt_Some _ _ _ Ha) as Hlta.
    pose proof (lookup_lt_Some _ _ _ Hb) as Hltb.
    assert (Hina : (a, S a) ∈ index_pairs (length w))
      by (apply elem_of_index_pairs; lia).
    assert (Hinb : (b, S b) ∈ index_pairs (length w))
      by (apply elem_of_index_pairs; lia).
    apply list_elem_of_lookup in Hina as [ka Hka].
    apply list_elem_of_lookup in Hinb as [kb Hkb].
    assert (Hslice : ∀ k, w !! k = Some c → slice k (S k) w = [c]).
    { intros k Hk. unfold slice. replace (S k - k) with 1 by lia.
      by rewrite (drop_S _ _ _ Hk). }
    assert (ka = kb); [|congruence].
    eapply (NoDup_lookup _ ka kb [c] Hsubs); rewrite list_lookup_fmap.
    + rewrite Hka. simpl. by rewrite Hslice.
    + rewrite Hkb. simpl. by rewrite Hslice.
  - intros Hw. rewrite size_list_to_set by by apply Hback.
    rewrite obtain_substrings_index_pairs, length_fmap.
    pose proof (length_index_pairs (length w)) as Hlen.
    rewrite <- Hlen, Nat.mul_comm. by rewrite Nat.div_mul.
Qed.

Lemma sum_suffix_lengths (l : str) (k : nat) :
  k ≤ length l →
  2 * sum_list (length <$> ((λ j, drop j l) <$> seq 0 k)) + k * k
  = k * (2 * length l + 1).
Proof.
  induction k as [|k IH]; intros Hk; [done|].
  rewrite seq_S, !fmap_app, sum_list_with_app. simpl.
  rewrite length_drop. specialize (IH ltac:(lia)). nia.
Qed.

(** X6. The yields of [obtain_substrings w] hold [n * (n + 1) * (n + 2) / 6]
    characters in all, for a word of [n] characters. *)
Theorem obtain_substrings_total_length (w : str) :
  6 * sum_list (length <$> obtain_substrings w)
  = length w * (length w + 1) * (length w + 2).
Proof.
  induction w as [|c w IH] using rev_ind; [done|].
  rewrite obtain_substrings_snoc, fmap_app, sum_list_with_app.
  pose proof (sum_suffix_lengths (w ++ [c]) (S (length w))) as Hsuf.
  rewrite length_app in *. simpl in *.
  specialize (Hsuf ltac:(lia)). nia.
Qed.

(** ** The substrings of a file *)

Lemma length_obtain_substrings (line : str) :
  length (obtain_substrings line) = length line * (length line + 1) / 2.
Proof.
  rewrite obtain_substrings_index_pairs, length_fmap.
  pose proof (length_index_pairs (length line)) as Hlen.
  rewrite <- Hlen, Nat.mul_comm. by rewrite Nat.div_mul.
Qed.

Lemma length_bind_obtain_substrings (lines : list (list N)) :
  length (line ← lines; obtain_substrings line)
  = sum_list ((λ line, length line * (length line + 1) / 2) <$> lines).
Proof.
  induction lines as [|line lines IH]; [done|].
  rewrite bind_cons, length_app, IH, fmap_cons, length_obtain_substrings.
  reflexivity.
Qed.

(** X7. For an existing file, [find_substrings_from_file] yields exactly
    the non-empty contiguous parts of the lines [read_file] yields, as many
    as [n * (n + 1) / 2] summed over the lines of length [n]; no yield
    holds a line terminator.  The world is left as it was. *)
Theorem find_substrings_from_file_yields (w : world) (filename : string)
    (content : str) :
  files w !! filename = Some content →
  ∃ lines substrings,
    read_file filename w = (Ok lines, w)
    ∧ find_substrings_from_file filename w = (Ok substrings, w)
    ∧ (∀ s, s ∈ substrings ↔
            s ≠ [] ∧ ∃ line pre suf, line ∈ lines ∧ line = pre ++ s ++ suf)
    ∧ length substrings
      = sum_list ((λ line, length line * (length line + 1) / 2) <$> lines)
    ∧ Forall (λ s, (LF ∉ s) ∧ (CR ∉ s)) substrings.
Proof.
  intros Hf.
  destruct (read_file_lines_clean w filename content Hf)
    as (lines & Hread & _ & Hclean).
  exists lines, (line ← lines; obtain_substrings line).
  assert (Hmem : ∀ s, s ∈ (line ← lines; obtain_substrings line) ↔
            s ≠ [] ∧ ∃ line pre suf, line ∈ lines ∧ line = pre ++ s ++ suf).
  { intros s. rewrite list_elem_of_bind. split.
    - intros (line & Hs%obtain_substrings_elem_of & Hline).
      destruct Hs as (Hne & pre & suf & Heq). split; [done|].
      by exists line, pre, suf.
    - intros (Hne & line & pre & suf & Hline & Heq).
      exists line. split; [|done]. apply obtain_substrings_elem_of.
      split; [done|]. by exists pre, suf. }
  split_and!.
  - exact Hread.
  - unfold find_substrings_from_file. by rewrite (bind_run_Ok _ _ w w lines Hread).
  - exact Hmem.
  - apply length_bind_obtain_substrings.
  - apply Forall_forall. intros s (_ & line & pre & suf & Hline & Heq)%Hmem.
    rewrite Forall_forall in Hclean.
    destruct (Hclean line Hline) as (Hlf & Hcr & _).
    rewrite Heq in Hlf, Hcr. rewrite !elem_of_app in Hlf, Hcr. tauto.
Qed.

(** ** More on the error-bound report *)

Section metrics_more.
Context `{SketchLibrary}.


End metrics_more.

(** ** More on the ingestion *)

Section ingestion_more.
Context `{SketchLibrary}.

Lemma HyperLogLog_invalid (w : world) (eps : Q) :
  (eps <= 0)%Q ∨ (1 <= eps)%Q →
  HyperLogLog eps w = (Raise InvalidParameter, w).
Proof.
  intros Heps. unfold HyperLogLog.
  destruct (Qle_bool eps 0) eqn:E0; [done|].
  destruct (Qle_bool 1 eps) eqn:E1; [done|].
  destruct Heps as [Hle | Hle]; apply Qle_bool_iff in Hle; congruence.
Qed.

Lemma HyperLogLog_cases (w : world) (eps : Q) :
  HyperLogLog eps w = (Raise InvalidParameter, w)
  ∨ ∃ p, (0 < eps)%Q ∧ (eps < 1)%Q ∧ choose_precision eps = Some p ∧ 4 ≤ p.
Proof.
  unfold HyperLogLog.
  destruct (Qle_bool eps 0) eqn:E0; [by left|].
  destruct (Qle_bool 1 eps) eqn:E1; [by left|].
  destruct (choose_precision eps) as [p|]; [|by left].
  destruct (Nat.leb_spec 4 p) as [Hp|_]; [|by left].
  right. exists p. split_and!; [| |done|done].
  - apply Qnot_le_lt. intros Hle%Qle_bool_iff. congruence.
  - apply Qnot_le_lt. intros Hle%Qle_bool_iff. congruence.
Qed.

Lemma create_hll_missing_file (w : world) (filename : string) (eps : Q)
    (p : nat) :
  (0 < eps)%Q → (eps < 1)%Q → choose_precision eps = Some p → 4 ≤ p →
  files w !! filename = None →
  create_hll filename eps w
  = (Raise FileNotFoundError,
     set_heap (<[fresh (dom (heap w)) := add_item [] (empty_sketch p)]>
                 (heap w)) w).
Proof.
  intros Hpos Hlt Hp Hge Hf. unfold create_hll.
  rewrite (bind_run_Ok _ _ _ _ _ (HyperLogLog_run w eps p Hpos Hlt Hp Hge)).
  unfold bind at 1. unfold hll_add at 1.
  cbn [heap set_heap]. rewrite lookup_insert_eq, insert_insert_eq.
  unfold bind, find_substrings_from_file, bind, read_file, bind, open_lines.
  cbn [files set_heap]. by rewrite Hf.
Qed.

(** The three ways a call of [create_hll] can end. *)
Lemma create_hll_cases (w : world) (filename : string) (eps : Q) :
  let hll := fresh (dom (heap w)) in
  create_hll filename eps w = (Raise InvalidParameter, w)
  ∨ (∃ p, files w !! filename = None
          ∧ create_hll filename eps w
            = (Raise FileNotFoundError,
               set_heap (<[hll := add_item [] (empty_sketch p)]> (heap w)) w))
  ∨ (∃ s, create_hll filename eps w
          = (Ok hll, set_heap (<[hll := s]> (heap w)) w)).
Proof.
  intros hll.
  destruct (HyperLogLog_cases w eps) as [Hinv | (p & Hpos & Hlt & Hp & Hge)].
  - left. unfold create_hll, bind. by rewrite Hinv.
  - right. destruct (files w !! filename) as [content|] eqn:Hf.
    + right. eexists. by apply (create_hll_run w filename content eps p).
    + left. exists p. split; [done|]. by apply create_hll_missing_file.
Qed.

(** X10. Whatever its outcome, [create_hll] changes no file, prints
    nothing and leaves every sketch that existed as it was; the sketch it
    returns is an object that did not exist before the call. *)
Theorem create_hll_frame (w : world) (filename : string) (eps : Q) :
  let w' := (create_hll filename eps w).2 in
  files w' = files w
  ∧ stdout w' = stdout w
  ∧ (∀ l, is_Some (heap w !! l) → heap w' !! l = heap w !! l)
  ∧ (∀ hll, (create_hll filename eps w).1 = Ok hll →
            heap w !! hll = None ∧ is_Some (heap w' !! hll)).
Proof.
  intros w'. unfold w'.
  pose proof (fresh_heap_None w) as Hfresh.
  assert (Hold : ∀ (s : Sketch) l, is_Some (heap w !! l) →
            <[fresh (dom (heap w)) := s]> (heap w) !! l = heap w !! l).
  { intros s l [s' Hl]. apply lookup_insert_ne. congruence. }
  destruct (create_hll_cases w filename eps)
    as [-> | [(p & _ & ->) | (s & ->)]]; cbn [fst snd heap set_heap files stdout].
  - split_and!; [done | done | done | discriminate].
  - split_and!; [done | done | apply Hold | discriminate].
  - split_and!; [done | done | apply Hold |].
    intros hll [= <-]. split; [done|]. rewrite lookup_insert_eq. eauto.
Qed.

(** X11. [create_hll] builds the sketch before it opens the file.  A
    relative error outside (0, 1) makes it fail with [InvalidParameter],
    the world unchanged, whether the file exists or not.  With a relative
    error the construction accepts, a missing file makes it fail with
    [FileNotFoundError] once the sketch has been built and holds the empty
    string. *)
Theorem create_hll_failures (w : world) (filename : string) (eps : Q) :
  ((eps <= 0)%Q ∨ (1 <= eps)%Q →
   create_hll filename eps w = (Raise InvalidParameter, w))
  ∧ (∀ p, (0 < eps)%Q → (eps < 1)%Q → choose_precision eps = Some p → 4 ≤ p →
          files w !! filename = None →
          create_hll filename eps w
          = (Raise FileNotFoundError,
             set_heap (<[fresh (dom (heap w)) := add_item [] (empty_sketch p)]>
                         (heap w)) w)).
Proof.
  split.
  - intros Heps. unfold create_hll, bind. by rewrite HyperLogLog_invalid.
  - intros p. apply create_hll_missing_file.
Qed.

End ingestion_more.

(** ** The sketch as a set summary *)

Section set_summary.
Context `{SketchLibrary}.

Lemma max_insert_commute (regs : list nat) (j1 j2 k1 k2 : nat) :
  <[j2 := (<[j1 := (regs !!! j1) `max` k1]> regs !!! j2) `max` k2]>
    (<[j1 := (regs !!! j1) `max` k1]> regs)
  = <[j1 := (<[j2 := (regs !!! j2) `max` k2]> regs !!! j1) `max` k1]>
      (<[j2 := (regs !!! j2) `max` k2]> regs).
Proof.
  destruct (decide (j1 = j2)) as [<-|Hne].
  - destruct (decide (j1 < length regs)) as [Hlt|Hge].
    + rewrite !list_lookup_total_insert_eq by done.
      rewrite !list_insert_insert_eq. f_equal. lia.
    + by rewrite !(list_insert_ge regs) by lia.
  - rewrite !list_lookup_total_insert_ne by done.
    by apply list_insert_insert_ne.
Qed.

(** Two [add]s commute. *)
Lemma add_item_commute (x y : str) (s : Sketch) :
  add_item x (add_item y s) = add_item y (add_item x s).
Proof.
  destruct s as [p regs]. unfold add_item. simpl. f_equal.
  apply max_insert_commute.
Qed.

Lemma add_item_foldl (x : str) (items : list (list N)) :
  ∀ s, add_item x (foldl (λ s x, add_item x s) s items)
       = foldl (λ s x, add_item x s) (add_item x s) items.
Proof.
  induction items as [|y items IH]; intros s; [done|].
  simpl. by rewrite IH, add_item_commute.
Qed.

(** An item that has been added is absorbed. *)
Lemma add_item_absorbed (x : str) (items : list (list N)) :
  ∀ s, x ∈ items →
       add_item x (foldl (λ s x, add_item x s) s items)
       = foldl (λ s x, add_item x s) s items.
Proof.
  induction items as [|y items IH]; intros s Hin; [by apply elem_of_nil in Hin|].
  apply elem_of_cons in Hin as [-> | Hin]; simpl.
  - by rewrite add_item_foldl, add_item_idempotent.
  - by apply IH.
Qed.

Lemma foldl_add_item_absorbed (items more : list (list N)) (s : Sketch) :
  more ⊆ items →
  foldl (λ s x, add_item x s) (foldl (λ s x, add_item x s) s items) more
  = foldl (λ s x, add_item x s) s items.
Proof.
  induction more as [|x more IH]; intros Hsub; [done|]. simpl.
  rewrite add_item_absorbed by (apply Hsub; by left).
  apply IH. intros y Hy. apply Hsub. by right.
Qed.

Lemma foldl_add_item_swap (items more : list (list N)) :
  ∀ s, foldl (λ s x, add_item x s) (foldl (λ s x, add_item x s) s items) more
       = foldl (λ s x, add_item x s) (foldl (λ s x, add_item x s) s more) items.
Proof.
  induction items as [|x items IH]; intros s; [done|]. simpl.
  by rewrite IH, <- add_item_foldl.
Qed.

(** The sketch reached from [s] depends on the set of the items added, not
    on their order or their repetitions. *)
Lemma foldl_add_item_set (items1 items2 : list (list N)) (s : Sketch) :
  (∀ x, x ∈ items1 ↔ x ∈ items2) →
  foldl (λ s x, add_item x s) s items1 = foldl (λ s x, add_item x s) s items2.
Proof.
  intros Hsame.
  rewrite <- (foldl_add_item_absorbed items1 items2 s) by (intros x; apply Hsame).
  rewrite foldl_add_item_swap.
  apply foldl_add_item_absorbed. intros x. apply Hsame.
Qed.

(** X12. The sketch [create_hll] builds depends on the set of lines of the
    file only: two files whose stripped lines form the same set, in whatever
    order and however often repeated, give sketches in the same state, and
    so the same [len]. *)
Theorem create_hll_same_lines (w1 w2 : world) (filename1 filename2 : string)
    (content1 content2 : str) (eps : Q) (p : nat) :
  files w1 !! filename1 = Some content1 →
  files w2 !! filename2 = Some content2 →
  (0 < eps)%Q → (eps < 1)%Q → choose_precision eps = Some p → 4 ≤ p →
  (∀ line, line ∈ strip <$> file_lines (universal_newlines false content1)
           ↔ line ∈ strip <$> file_lines (universal_newlines false content2)) →
  ∃ hll1 hll2 w1' w2' sketch,
    create_hll filename1 eps w1 = (Ok hll1, w1')
    ∧ create_hll filename2 eps w2 = (Ok hll2, w2')
    ∧ heap w1' !! hll1 = Some sketch
    ∧ heap w2' !! hll2 = Some sketch
    ∧ (hll_len hll1 w1').1 = (hll_len hll2 w2').1.
Proof.
  intros Hf1 Hf2 Hpos Hlt Hp Hge Hlines.
  pose proof (create_hll_run w1 filename1 content1 eps p Hf1 Hpos Hlt Hp Hge) as Hrun1.
  pose proof (create_hll_run w2 filename2 content2 eps p Hf2 Hpos Hlt Hp Hge) as Hrun2.
  cbv zeta in Hrun1, Hrun2.
  set (lines1 := strip <$> file_lines (universal_newlines false content1)) in *.
  set (lines2 := strip <$> file_lines (universal_newlines false content2)) in *.
  assert (Hsame : foldl (λ s x, add_item x s) (empty_sketch p)
                    ([] :: (line ← lines1; obtain_substrings line))
                  = foldl (λ s x, add_item x s) (empty_sketch p)
                      ([] :: (line ← lines2; obtain_substrings line))).
  { apply foldl_add_item_set. intros x. rewrite !elem_of_cons, !list_elem_of_bind.
    split; intros [-> | (line & Hx & Hline)]; [by left | right | by left | right];
      exists line; (split; [done|]); by apply Hlines. }
  rewrite <- Hsame in Hrun2.
  do 5 eexists. split_and!; [exact Hrun1 | exact Hrun2 | | |].
  - apply lookup_insert_eq.
  - apply lookup_insert_eq.
  - unfold hll_len. cbn [heap set_heap]. by rewrite !lookup_insert_eq.
Qed.

End set_summary.

(** ** Merging *)

Section merging.
Context `{SketchLibrary}.

Lemma merge_comm (a b : Sketch) :
  precision a = precision b → merge a b = merge b a.
Proof.
  intros Hprec. unfold merge. rewrite Hprec. f_equal.
  apply list_eq. intros i. rewrite !lookup_zip_with.
  destruct (registers a !! i), (registers b !! i); simpl; [f_equal; lia|done..].
Qed.

Lemma merge_add_item_l (x : str) (a b : Sketch) :
  merge (add_item x a) b = add_item x (merge a b).
Proof.
  destruct a as [p regs], b as [q regs']. unfold merge, add_item. simpl.
  set (j := Z.to_nat _). set (k := rho _ _). f_equal.
  apply list_eq. intros i. rewrite lookup_zip_with.
  destruct (decide (i = j)) as [->|Hne].
  - destruct (regs !! j) as [aj|] eqn:Ha.
    + pose proof (lookup_lt_Some _ _ _ Ha) as Hlt.
      rewrite list_lookup_insert_eq by done.
      rewrite (list_lookup_total_correct _ _ _ Ha). simpl.
      destruct (regs' !! j) as [bj|] eqn:Hb.
      * pose proof (lookup_lt_Some _ _ _ Hb) as Hlt'.
        rewrite list_lookup_insert_eq by (rewrite length_zip_with; lia).
        assert (Hz : zip_with Nat.max regs regs' !! j = Some (aj `max` bj))
          by (by rewrite lookup_zip_with, Ha, Hb).
        rewrite (list_lookup_total_correct _ _ _ Hz). simpl. f_equal. lia.
      * apply lookup_ge_None in Hb.
        rewrite list_insert_ge by (rewrite length_zip_with; lia).
        symmetry. apply lookup_zip_with_None. right. by apply lookup_ge_None.
    + apply lookup_ge_None in Ha.
      rewrite (list_insert_ge regs) by lia.
      rewrite list_insert_ge by (rewrite length_zip_with; lia).
      by rewrite lookup_zip_with.
  - rewrite !list_lookup_insert_ne by done. by rewrite lookup_zip_with.
Qed.

Lemma merge_add_item_r (x : str) (a b : Sketch) :
  precision a = precision b →
  merge a (add_item x b) = add_item x (merge a b).
Proof.
  intros Hprec. rewrite (merge_comm a (add_item x b)) by done.
  rewrite merge_add_item_l. by rewrite (merge_comm b a).
Qed.

(** Merging two sketches grown from [a] and [b] is growing the merge of
    [a] and [b] by the items of both. *)
Lemma merge_foldl_add_item (items1 items2 : list (list N)) :
  ∀ a b, precision a = precision b →
    merge (foldl (λ s x, add_item x s) a items1)
          (foldl (λ s x, add_item x s) b items2)
    = foldl (λ s x, add_item x s) (merge a b) (items1 ++ items2).
Proof.
  induction items1 as [|x items1 IH]; intros a b Hprec.
  - simpl. revert b Hprec.
    induction items2 as [|y items2 IH2]; intros b Hprec; [done|].
    simpl. rewrite IH2 by done. by rewrite merge_add_item_r.
  - simpl. rewrite IH by done. by rewrite merge_add_item_l.
Qed.

Lemma merge_empty_sketch (p : nat) :
  merge (empty_sketch p) (empty_sketch p) = empty_sketch p.
Proof. unfold merge, empty_sketch. simpl. by rewrite zip_with_replicate. Qed.

End merging.

(** ** More on the script *)

Section script_more.
Context `{SketchLibrary}.

Lemma fresh_larger_heap_None (h h' : gmap positive Sketch) :
  dom h ⊆ dom h' → h !! fresh (dom h') = None.
Proof.
  intros Hsub. apply not_elem_of_dom. intros Hin.
  by apply (is_fresh (dom h')), Hsub.
Qed.

(** The whole run of the script when both word lists exist. *)
Lemma main_run (w : world) (dk_content en_content : str) :
  files w !! "words_danish.txt"%string = Some dk_content →
  files w !! "words_english.txt"%string = Some en_content →
  let items := λ content : str,
    [] :: (line ← strip <$> file_lines (universal_newlines false content);
           obtain_substrings line) in
  let dk := foldl (λ s x, add_item x s) (empty_sketch 14) (items dk_content) in
  let en := foldl (λ s x, add_item x s) (empty_sketch 14) (items en_content) in
  let hll_dk := fresh (dom (heap w)) in
  let h1 := <[hll_dk := dk]> (heap w) in
  let hll_en := fresh (dom h1) in
  let h2 := <[hll_en := en]> h1 in
  let hll_combined := fresh (dom h2) in
  let eps := (1 # 100)%Q in
  let low := λ n : N, (1 / (1 + eps) * float_of_int n)%Q in
  let upp := λ n : N, (1 / (1 - eps) * float_of_int n)%Q in
  let err := λ n : N, (eps / (1 + eps) * float_of_int n)%Q in
  let dk_est := estimator (precision dk) (registers dk) in
  let en_est := estimator (precision en) (registers en) in
  let comb_est := estimator (precision (merge en dk)) (registers (merge en dk)) in
  main w
  = (Ok tt,
     {| files := files w;
        heap := <[hll_combined := merge en dk]> h2;
        stdout := stdout w ++
          [Estimates "Danish" (low dk_est) dk_est (upp dk_est);
           Estimates "English" (low en_est) en_est (upp en_est);
           Estimates "Combined"
             (float_of_int comb_est - (err dk_est + err en_est)) comb_est
             (float_of_int comb_est + (err dk_est + err en_est));
           BlankLine] |}).
Proof.
  intros Hdk Hen items dk en hll_dk h1 hll_en h2 hll_combined eps low upp err
    dk_est en_est comb_est.
  assert (Hpos : (0 < eps)%Q) by reflexivity.
  assert (Hlt : (eps < 1)%Q) by reflexivity.
  assert (H14 : 4 ≤ 14) by lia.
  pose proof (create_hll_run w _ dk_content eps 14 Hdk Hpos Hlt
                choose_precision_main H14) as Hrun1.
  cbv zeta in Hrun1. fold (items dk_content) in Hrun1.
  fold dk hll_dk h1 in Hrun1.
  set (w1 := set_heap h1 w) in *.
  pose proof (create_hll_run w1 _ en_content eps 14 Hen Hpos Hlt
                choose_precision_main H14) as Hrun2.
  cbv zeta in Hrun2. fold (items en_content) in Hrun2.
  change (heap w1) with h1 in Hrun2. fold en hll_en h2 in Hrun2.
  set (w2 := set_heap h2 w1) in *.
  assert (Hne : hll_en ≠ hll_dk).
  { intros Heq. pose proof (is_fresh (dom h1)) as Hnone. fold hll_en in Hnone.
    rewrite Heq in Hnone. apply Hnone, elem_of_dom.
    unfold h1. rewrite lookup_insert_eq. eauto. }
  assert (Hdk2 : heap w2 !! hll_dk = Some dk).
  { unfold w2, h2, h1. cbn [heap set_heap].
    by rewrite lookup_insert_ne, lookup_insert_eq. }
  assert (Hen2 : heap w2 !! hll_en = Some en) by apply lookup_insert_eq.
  assert (Hprec : precision en = precision dk).
  { unfold en, dk. by rewrite !precision_foldl_add_item. }
  assert (Hmetrics : ∀ (w0 : world) (hll : loc) (s : Sketch),
             heap w0 !! hll = Some s →
             let n := estimator (precision s) (registers s) in
             calculate_metrics hll eps w0 = (Ok (low n, n, upp n, err n), w0)).
  { intros w0 hll s Hs. by rewrite (calculate_metrics_run w0 hll s eps Hs). }
  set (w3 := {| files := files w2; heap := heap w2;
                stdout := stdout w2 ++ [Estimates "Danish" (low dk_est) dk_est
                                          (upp dk_est)] |}).
  set (w4 := {| files := files w3; heap := heap w3;
                stdout := stdout w3 ++ [Estimates "English" (low en_est) en_est
                                          (upp en_est)] |}).
  pose proof (combine_run w4 hll_en hll_dk en dk Hen2 Hdk2 Hprec) as Hrun5.
  change (heap w4) with h2 in Hrun5. fold hll_combined in Hrun5.
  set (w5 := set_heap (<[hll_combined := merge en dk]> h2) w4) in *.
  assert (Hcomb5 : heap w5 !! hll_combined = Some (merge en dk))
    by apply lookup_insert_eq.
  pose proof (report_combined_run w5 hll_combined (merge en dk)
                (err dk_est) (err en_est) Hcomb5) as Hrun6.
  cbv zeta in Hrun6. fold comb_est in Hrun6.
  set (w6 := {| files := files w5; heap := heap w5; stdout := _ |}) in Hrun6.
  unfold main. fold eps.
  rewrite (bind_run_Ok _ _ w w1 hll_dk Hrun1).
  rewrite (bind_run_Ok _ _ w1 w2 hll_en Hrun2).
  rewrite (bind_run_Ok _ _ w2 w2 _ (Hmetrics w2 hll_dk dk Hdk2)).
  cbv beta iota. unfold bind at 1. unfold print_estimates at 1. fold w3.
  rewrite (bind_run_Ok _ _ w3 w3 _ (Hmetrics w3 hll_en en Hen2)).
  cbv beta iota. unfold bind at 1. unfold print_estimates at 1. fold w4.
  rewrite (bind_run_Ok _ _ w4 w5 hll_combined Hrun5).
  rewrite (bind_run_Ok _ _ w5 w6 tt Hrun6).
  unfold print_blank, w6, w5, w4, w3, w2, w1.
  cbn [files heap stdout set_heap]. by rewrite <- !app_assoc.
Qed.

(** X13. The combined sketch of the script is the sketch of the union.
    When a third file holds the lines of both word lists, in any order,
    [create_hll] builds from it a sketch in the very state of the combined
    sketch, so the estimate printed in the "Combined" block is the [len] of
    that sketch. *)
Theorem main_combined_is_union (w : world) (both : string)
    (dk_content en_content both_content : str) :
  files w !! "words_danish.txt"%string = Some dk_content →
  files w !! "words_english.txt"%string = Some en_content →
  files w !! both = Some both_content →
  (∀ line, line ∈ strip <$> file_lines (universal_newlines false both_content)
           ↔ line ∈ strip <$> file_lines (universal_newlines false en_content)
             ∨ line ∈ strip <$> file_lines (universal_newlines false dk_content)) →
  ∃ (w' w'' : world) (hll_both : loc) (sketch : Sketch) (comb_low comb_upp : Q),
    main w = (Ok tt, w')
    ∧ create_hll both (1 # 100) w = (Ok hll_both, w'')
    ∧ heap w'' !! hll_both = Some sketch
    ∧ stdout w' !! (length (stdout w) + 2)
      = Some (Estimates "Combined" comb_low
                (estimator (precision sketch) (registers sketch)) comb_upp)
    ∧ ∃ hll_combined, heap w' !! hll_combined = Some sketch
                      ∧ heap w !! hll_combined = None.
Proof.
  intros Hdk Hen Hboth Hlines.
  pose proof (main_run w dk_content en_content Hdk Hen) as Hmain.
  cbv beta zeta in Hmain.
  assert (Hpos : (0 < 1 # 100)%Q) by reflexivity.
  assert (Hlt : (1 # 100 < 1)%Q) by reflexivity.
  assert (H14 : 4 ≤ 14) by lia.
  pose proof (create_hll_run w both both_content (1 # 100) 14 Hboth Hpos Hlt
                choose_precision_main H14) as Hrun.
  cbv zeta in Hrun.
  set (lines_dk := strip <$> file_lines (universal_newlines false dk_content)) in *.
  set (lines_en := strip <$> file_lines (universal_newlines false en_content)) in *.
  set (lines_both := strip <$> file_lines (universal_newlines false both_content)) in *.
  set (dk := foldl _ (empty_sketch 14) ([] :: (line ← lines_dk; obtain_substrings line))) in *.
  set (en := foldl _ (empty_sketch 14) ([] :: (line ← lines_en; obtain_substrings line))) in *.
  assert (Hunion : merge en dk
                   = foldl (λ s x, add_item x s) (empty_sketch 14)
                       ([] :: (line ← lines_both; obtain_substrings line))).
  { unfold en, dk. rewrite merge_foldl_add_item by done.
    rewrite merge_empty_sketch. apply foldl_add_item_set. intros x.
    rewrite elem_of_app, !elem_of_cons, !list_elem_of_bind. split.
    - intros [[-> | (line & Hx & Hline)] | [-> | (line & Hx & Hline)]];
        [by left | right | by left | right]; exists line;
        (split; [done|]); apply Hlines; auto.
    - intros [-> | (line & Hx & Hline)]; [by left; left|].
      apply Hlines in Hline as [Hline | Hline]; [left | right]; right;
        by exists line. }
  rewrite Hunion in Hmain.
  set (sketch := foldl _ (empty_sketch 14) ([] :: (line ← lines_both; obtain_substrings line))) in *.
  do 6 eexists. split_and!; [exact Hmain | exact Hrun | apply lookup_insert_eq | |].
  - cbn [stdout]. rewrite lookup_app_r by lia.
    replace (length (stdout w) + 2 - length (stdout w)) with 2 by lia.
    reflexivity.
  - eexists. cbn [heap]. split; [apply lookup_insert_eq|].
    apply fresh_larger_heap_None. rewrite !dom_insert_L.
    apply elem_of_subseteq. intros l Hl. by apply elem_of_union_r, elem_of_union_r.
Qed.

(** X14. In every block the script prints the bounds enclose the estimate:
    lower <= estimate <= upper for the Danish, the English and the combined
    block. *)
Theorem main_blocks_ordered (w : world) (dk_content en_content : str) :
  files w !! "words_danish.txt"%string = Some dk_content →
  files w !! "words_english.txt"%string = Some en_content →
  ∃ (w' : world) (dk_low dk_upp en_low en_upp comb_low comb_upp : Q)
    (dk_est en_est comb_est : N),
    main w = (Ok tt, w')
    ∧ stdout w'
      = stdout w ++ [Estimates "Danish" dk_low dk_est dk_upp;
                     Estimates "English" en_low en_est en_upp;
                     Estimates "Combined" comb_low comb_est comb_upp;
                     BlankLine]
    ∧ (dk_low <= inject_Z (Z.of_N dk_est))%Q
    ∧ (inject_Z (Z.of_N dk_est) <= dk_upp)%Q
    ∧ (en_low <= inject_Z (Z.of_N en_est))%Q
    ∧ (inject_Z (Z.of_N en_est) <= en_upp)%Q
    ∧ (comb_low <= inject_Z (Z.of_N comb_est))%Q
    ∧ (inject_Z (Z.of_N comb_est) <= comb_upp)%Q.
Proof.
  intros Hdk Hen.
  pose proof (main_run w dk_content en_content Hdk Hen) as Hmain.
  cbv beta zeta in Hmain.
  assert (Hlow : ∀ n : N,
            (1 / (1 + (1 # 100)) * float_of_int n <= float_of_int n)%Q).
  { intros n. pose proof (float_of_int_nonneg n).
    rewrite Qmult_one_div by (intros Heq; discriminate Heq).
    apply Qdiv_le_self; [done|]. intros Hgt. discriminate Hgt. }
  assert (Hupp : ∀ n : N,
            (float_of_int n <= 1 / (1 - (1 # 100)) * float_of_int n)%Q).
  { intros n. pose proof (float_of_int_nonneg n).
    rewrite Qmult_one_div by (intros Heq; discriminate Heq).
    apply Qdiv_ge_self; [done|reflexivity|]. intros Hgt. discriminate Hgt. }
  assert (Herr : ∀ n : N, (0 <= (1 # 100) / (1 + (1 # 100)) * float_of_int n)%Q).
  { intros n. apply Qmult_le_0_compat; [|apply float_of_int_nonneg].
    intros Hgt. discriminate Hgt. }
  do 10 eexists.
  split_and!; [exact Hmain | reflexivity | apply Hlow | apply Hupp
              | apply Hlow | apply Hupp | |].
  - match goal with |- (_ - (?a + ?b) <= _)%Q =>
      pose proof (Herr _ : (0 <= a)%Q); pose proof (Herr _ : (0 <= b)%Q) end.
    unfold float_of_int in *. lra.
  - match goal with |- (_ <= _ + (?a + ?b))%Q =>
      pose proof (Herr _ : (0 <= a)%Q); pose proof (Herr _ : (0 <= b)%Q) end.
    unfold float_of_int in *. lra.
Qed.

(** X15. A missing word list ends the script before anything is printed.
    When [words_danish.txt] does not exist, or it holds text and
    [words_english.txt] does not exist, the script ends with
    [FileNotFoundError]; it has printed nothing, since both sketches are
    built before the first block is printed, and it has changed no file. *)
Theorem main_missing_file (w : world) :
  (files w !! "words_danish.txt"%string = None
   ∨ is_Some (files w !! "words_danish.txt"%string)
     ∧ files w !! "words_english.txt"%string = None) →
  ∃ w', main w = (Raise FileNotFoundError, w')
        ∧ stdout w' = stdout w
        ∧ files w' = files w.
Proof.
  assert (Hpos : (0 < 1 # 100)%Q) by reflexivity.
  assert (Hlt : (1 # 100 < 1)%Q) by reflexivity.
  assert (H14 : 4 ≤ 14) by lia.
  intros [Hdk | [[dk_content Hdk] Hen]].
  - pose proof (create_hll_missing_file w "words_danish.txt" (1 # 100) 14
                  Hpos Hlt choose_precision_main H14 Hdk) as Hrun1.
    exists (set_heap (<[fresh (dom (heap w)) := add_item [] (empty_sketch 14)]>
                        (heap w)) w).
    split_and!; [|reflexivity|reflexivity].
    unfold main. unfold bind at 1. by rewrite Hrun1.
  - pose proof (create_hll_run w _ dk_content (1 # 100) 14 Hdk Hpos Hlt
                  choose_precision_main H14) as Hrun1.
    cbv zeta in Hrun1. set (w1 := set_heap _ w) in Hrun1.
    pose proof (create_hll_missing_file w1 "words_english.txt" (1 # 100) 14
                  Hpos Hlt choose_precision_main H14 Hen) as Hrun2.
    exists (set_heap (<[fresh (dom (heap w1)) := add_item [] (empty_sketch 14)]>
                        (heap w1)) w1).
    split_and!; [|reflexivity|reflexivity].
    unfold main. rewrite (bind_run_Ok _ _ w w1 _ Hrun1).
    unfold bind at 1. by rewrite Hrun2.
Qed.

End script_more.

(** ** Line terminators *)

Lemma universal_newlines_crlf (word rest : str) :
  CR ∉ word → LF ∉ word →
  universal_newlines false (word ++ CR :: LF :: rest)
  = word ++ LF :: universal_newlines false rest.
Proof.
  induction word as [|c word IH]; intros Hcr Hlf; [done|].
  apply not_elem_of_cons in Hcr as [Hc Hcr].
  apply not_elem_of_cons in Hlf as [Hc' Hlf].
  simpl. destruct (N.eqb_spec c CR) as [->|_]; [done|].
  destruct (N.eqb_spec c LF) as [->|_]; [done|]. by rewrite IH.
Qed.

Lemma universal_newlines_crlf_word_list (words : list (list N)) :
  Forall (λ word, (LF ∉ word) ∧ (CR ∉ word) ∧ trimmed word) words →
  universal_newlines false (mjoin ((λ word, word ++ [CR; LF]) <$> words))
  = mjoin ((λ word, word ++ [LF]) <$> words).
Proof.
  induction 1 as [|word words (Hlf & Hcr & _) _ IH]; [done|].
  rewrite !fmap_cons.
  change (mjoin ((word ++ [CR; LF]) :: ((λ word, word ++ [CR; LF]) <$> words)))
    with ((word ++ [CR; LF]) ++ mjoin ((λ word, word ++ [CR; LF]) <$> words)).
  change (mjoin ((word ++ [LF]) :: ((λ word, word ++ [LF]) <$> words)))
    with ((word ++ [LF]) ++ mjoin ((λ word, word ++ [LF]) <$> words)).
  rewrite <- !(assoc_L (++)).
  change ([CR; LF] ++ ?l) with (CR :: LF :: l).
  change ([LF] ++ ?l) with (LF :: l).
  by rewrite universal_newlines_crlf, IH.
Qed.

(** X16. A word list whose lines end with ["\r\n"] is read as the same
    words as the list whose lines end with ["\n"]. *)
Theorem read_file_word_list_crlf (w : world) (filename : string)
    (words : list (list N)) :
  Forall (λ word, (LF ∉ word) ∧ (CR ∉ word) ∧ trimmed word) words →
  files w !! filename = Some (mjoin ((λ word, word ++ [CR; LF]) <$> words)) →
  read_file filename w = (Ok words, w).
Proof.
  intros Hwords Hf. rewrite (read_file_run w filename _ Hf).
  rewrite universal_newlines_crlf_word_list by done.
  rewrite file_lines_word_list
    by (eapply Forall_impl; [exact Hwords|]; by intros word (? & _)).
  do 2 f_equal. clear Hf.
  induction Hwords as [|word words (_ & _ & Htrim) _ IH]; [done|].
  rewrite !fmap_cons, IH. f_equal.
  apply (strip_unique [] word [LF]); [done | by repeat constructor | done].
Qed.

(** ** The further properties at concrete inputs *)

Lemma read_file_lines_clean_padded :
  ∃ lines,
    read_file "words.txt" padded_world = (Ok lines, padded_world)
    ∧ length lines = 2
    ∧ Forall (λ line, (LF ∉ line) ∧ (CR ∉ line) ∧ trimmed line ∧ strip line = line)
             lines.
Proof.
  destruct (read_file_lines_clean padded_world "words.txt"
              ([32%N] ++ py "cat" ++ [32%N; 9%N; LF] ++ py "dog" ++ [LF]) eq_refl)
    as (lines & Hrun & Hlen & Hclean).
  exists lines. split_and!; [exact Hrun | exact Hlen | exact Hclean].
Defined.

Lemma trimmed_kat_hund :
  Forall (λ word, (LF ∉ word) ∧ (CR ∉ word) ∧ trimmed word) [py "kat"; py "hund"].
Proof.
  repeat constructor;
    try (intros Hin; repeat (apply elem_of_cons in Hin as [Heq | Hin];
                             [discriminate Heq|]);
         by apply elem_of_nil in Hin);
    intros c [= <-]; reflexivity.
Defined.

Lemma read_file_word_list_sample :
  read_file "words_danish.txt" sample_world
  = (Ok [py "kat"; py "hund"], sample_world).
Proof.
  apply (read_file_word_list sample_world "words_danish.txt"
           [py "kat"; py "hund"]); [exact trimmed_kat_hund | reflexivity].
Defined.

Lemma obtain_substrings_NoDup_cat :
  NoDup (obtain_substrings (py "cat"))
  ∧ size (list_to_set (obtain_substrings (py "cat")) : gset (list N)) = 6.
Proof.
  assert (Hcat : NoDup (py "cat")).
  { apply (bool_decide_unpack _). reflexivity. }
  destruct (obtain_substrings_NoDup (py "cat")) as [Hiff Hsize].
  split; [by apply Hiff | exact (Hsize Hcat)].
Defined.

Lemma find_substrings_from_file_yields_sample :
  ∃ substrings,
    find_substrings_from_file "words_danish.txt" sample_world
    = (Ok substrings, sample_world)
    ∧ length substrings = 16
    ∧ Forall (λ s, (LF ∉ s) ∧ (CR ∉ s)) substrings.
Proof.
  destruct (find_substrings_from_file_yields sample_world "words_danish.txt"
              (py "kat" ++ [LF] ++ py "hund" ++ [LF]) eq_refl)
    as (lines & substrings & Hread & Hrun & _ & Hlen & Hclean).
  exists substrings. split_and!; [exact Hrun | | exact Hclean].
  assert (Hlines : read_file "words_danish.txt" sample_world
                   = (Ok [py "kat"; py "hund"], sample_world)) by reflexivity.
  rewrite Hlines in Hread. injection Hread as <-. exact Hlen.
Defined.


Lemma create_hll_frame_populated :
  let w' := (@create_hll sample_library "words_danish.txt" (1 # 10)
               populated_world).2 in
  stdout w' = [BlankLine]
  ∧ heap w' !! 1%positive = heap populated_world !! 1%positive
  ∧ heap w' !! 2%positive = heap populated_world !! 2%positive
  ∧ heap populated_world !! 3%positive = None
  ∧ is_Some (heap w' !! 3%positive).
Proof.
  destruct (@create_hll_frame sample_library populated_world
              "words_danish.txt" (1 # 10))
    as (_ & Hout & Hold & Hnew).
  destruct (Hnew 3%positive eq_refl) as [Hfresh Hlive].
  split_and!; [exact Hout | | | exact Hfresh | exact Hlive].
  - apply Hold. eexists. reflexivity.
  - apply Hold. eexists. reflexivity.
Defined.

Lemma create_hll_failures_sample :
  @create_hll sample_library "words_danish.txt" 2 sample_world
  = (Raise InvalidParameter, sample_world)
  ∧ @create_hll sample_library "no_such_file.txt" 2 sample_world
    = (Raise InvalidParameter, sample_world)
  ∧ (@create_hll sample_library "no_such_file.txt" (1 # 10) sample_world).1
    = Raise FileNotFoundError.
Proof.
  assert (Hge : (2 <= 0)%Q ∨ (1 <= 2)%Q) by (right; intros Hlt; discriminate Hlt).
  split_and!.
  - by apply (@create_hll_failures sample_library sample_world
                "words_danish.txt" 2).
  - by apply (@create_hll_failures sample_library sample_world
                "no_such_file.txt" 2).
  - destruct (@create_hll_failures sample_library sample_world
                "no_such_file.txt" (1 # 10)) as [_ Hmissing].
    by rewrite (Hmissing 7 eq_refl eq_refl eq_refl ltac:(lia) eq_refl).
Defined.

Lemma create_hll_same_lines_shuffled :
  ∃ hll1 hll2 w1' w2' sketch,
    @create_hll sample_library "a.txt" (1 # 10) shuffled_world = (Ok hll1, w1')
    ∧ @create_hll sample_library "b.txt" (1 # 10) shuffled_world = (Ok hll2, w2')
    ∧ heap w1' !! hll1 = Some sketch
    ∧ heap w2' !! hll2 = Some sketch.
Proof.
  destruct (@create_hll_same_lines sample_library shuffled_world shuffled_world
              "a.txt" "b.txt"
              (py "cat" ++ [LF] ++ py "dog" ++ [LF] ++ py "cat" ++ [LF])
              (py " dog" ++ [CR; LF] ++ py "cat") (1 # 10) 7
              eq_refl eq_refl eq_refl eq_refl eq_refl ltac:(lia))
    as (hll1 & hll2 & w1' & w2' & sketch & Hrun1 & Hrun2 & Hs1 & Hs2 & _).
  - intros line.
    change (line ∈ [py "cat"; py "dog"; py "cat"] ↔ line ∈ [py "dog"; py "cat"]).
    rewrite !elem_of_cons, !elem_of_nil. tauto.
  - exists hll1, hll2, w1', w2', sketch.
    split_and!; [exact Hrun1 | exact Hrun2 | exact Hs1 | exact Hs2].
Defined.

Lemma main_combined_is_union_sample :
  ∃ (w' w'' : world) (hll_both : loc) (sketch : Sketch) (comb_low comb_upp : Q),
    @main sample_library union_world = (Ok tt, w')
    ∧ @create_hll sample_library "words_both.txt" (1 # 100) union_world
      = (Ok hll_both, w'')
    ∧ heap w'' !! hll_both = Some sketch
    ∧ stdout w' !! 2
      = Some (Estimates "Combined" comb_low
                (@estimator sample_library (precision sketch) (registers sketch))
                comb_upp).
Proof.
  destruct (@main_combined_is_union sample_library union_world "words_both.txt"
              (py "kat" ++ [LF] ++ py "hund" ++ [LF])
              (py "cat" ++ [CR; LF] ++ py "dog")
              (py "hund" ++ [LF] ++ py "cat" ++ [LF] ++ py "kat" ++ [LF]
               ++ py "dog" ++ [LF] ++ py "cat" ++ [LF])
              eq_refl eq_refl eq_refl)
    as (w' & w'' & hll_both & sketch & comb_low & comb_upp
        & Hmain & Hrun & Hsketch & Hout & _).
  - intros line.
    change (line ∈ [py "hund"; py "cat"; py "kat"; py "dog"; py "cat"]
            ↔ line ∈ [py "cat"; py "dog"] ∨ line ∈ [py "kat"; py "hund"]).
    rewrite !elem_of_cons, !elem_of_nil. tauto.
  - exists w', w'', hll_both, sketch, comb_low, comb_upp.
    split_and!; [exact Hmain | exact Hrun | exact Hsketch | exact Hout].
Defined.

Lemma main_blocks_ordered_sample :
  ∃ (w' : world) (dk_low dk_upp en_low en_upp comb_low comb_upp : Q)
    (dk_est en_est comb_est : N),
    @main sample_library sample_world = (Ok tt, w')
    ∧ stdout w'
      = [Estimates "Danish" dk_low dk_est dk_upp;
         Estimates "English" en_low en_est en_upp;
         Estimates "Combined" comb_low comb_est comb_upp;
         BlankLine]
    ∧ (dk_low <= inject_Z (Z.of_N dk_est))%Q
    ∧ (inject_Z (Z.of_N dk_est) <= dk_upp)%Q
    ∧ (en_low <= inject_Z (Z.of_N en_est))%Q
    ∧ (inject_Z (Z.of_N en_est) <= en_upp)%Q
    ∧ (comb_low <= inject_Z (Z.of_N comb_est))%Q
    ∧ (inject_Z (Z.of_N comb_est) <= comb_upp)%Q.
Proof.
  exact (@main_blocks_ordered sample_library sample_world
           (py "kat" ++ [LF] ++ py "hund" ++ [LF])
           (py "cat" ++ [CR; LF] ++ py "dog") eq_refl eq_refl).
Defined.

Lemma read_file_word_list_crlf_sample :
  read_file "words_crlf.txt" crlf_world = (Ok [py "kat"; py "hund"], crlf_world).
Proof.
  apply (read_file_word_list_crlf crlf_world "words_crlf.txt"
           [py "kat"; py "hund"]); [exact trimmed_kat_hund | reflexivity].
Defined.

Lemma main_missing_file_sample :
  (∃ w', @main sample_library crlf_world = (Raise FileNotFoundError, w')
         ∧ stdout w' = stdout crlf_world
         ∧ files w' = files crlf_world)
  ∧ (∃ w', @main sample_library danish_only_world = (Raise FileNotFoundError, w')
           ∧ stdout w' = stdout danish_only_world
           ∧ files w' = files danish_only_world).
Proof.
  split.
  - apply (@main_missing_file sample_library crlf_world). left. reflexivity.
  - apply (@main_missing_file sample_library danish_only_world). right.
    split; [eexists; reflexivity | reflexivity].
Defined.
